(** * Split-retry duplex stream (package intra, retrier)

    A shallow embedding of the retrier.  The arithmetic of [timeout] and of
    [splitHello] is a pair of Rocq functions.  The methods of the retrier are
    programs in a small command monad whose atomic commands are the accesses
    to the fields, the operations on the flags (channels) and on the mutex,
    and the calls into the net, time and math/rand packages.  The outside
    world is an oracle that answers every library call from the history of
    the calls made so far, so that a theorem about every oracle is a theorem
    about every behaviour of the network.

    The programs have two semantics.  In the first, goroutines are
    interleaved at scheduling points.  A call runs until it returns, panics,
    or parks: on a receive from an open flag, on a held mutex, or at the back
    edge of a loop.  Other calls run while it is parked, and it is resumed
    later.  The mutex is free at every scheduling point that the methods
    reach, so what the methods do under the mutex is never interleaved.  It
    serves for what a call does from a given state and for what does not
    rest on the mutex.

    In the second, the reader goroutine and the writer goroutine of the
    stream run one command at a time and are preempted between any two
    commands; a held mutex blocks the goroutine that wants it.  It serves
    for the fields that the mutex guards. *)

From Stdlib Require Import List ZArith Lia Bool Arith.
From Stdlib Require Import Strings.Byte.
Import ListNotations.

Set Implicit Arguments.

(** ** Time (package time) *)

Module GoTime.
Local Open Scope Z_scope.

Definition min_int64 : Z := - 2 ^ 63.
Definition max_int64 : Z := 2 ^ 63 - 1.

(** Two's complement wrap-around of int64 arithmetic. *)
Definition wrap64 (z : Z) : Z := (z + 2 ^ 63) mod 2 ^ 64 - 2 ^ 63.

(** An instant, in nanoseconds. *)
Definition Time := Z.
(** [time.Duration] is an int64 count of nanoseconds. *)
Definition Duration := Z.

Definition Millisecond : Duration := 1000000.

(** [t.Sub(u)]: the difference, saturated to the range of a Duration. *)
Definition Sub (t u : Time) : Duration :=
  if t - u <? min_int64 then min_int64
  else if max_int64 <? t - u then max_int64
  else t - u.

(** [t.Add(d)]. *)
Definition Add (t : Time) (d : Duration) : Time := t + d.

End GoTime.

(** ** The timeout estimator *)

Module Estimator.
Import GoTime.
Local Open Scope Z_scope.

(** [timeout], lines 70-76. *)
Definition timeout (before after : Time) : Duration :=
  let rtt := Sub after before in
  wrap64 (1200 * Millisecond + wrap64 (2 * rtt)).
End Estimator.

(** ** The split of the hello *)

Definition MIN_SPLIT : nat := 32.
Definition MAX_SPLIT : nat := 64.

(** Lines 168-172 of [splitHello]: the clamp of the drawn offset [s] and the
    two slices. *)
Definition split_at (s : nat) (hello : list byte) : list byte * list byte :=
  let limit := length hello / 2 in
  let s := if limit <? s then limit else s in
  (firstn s hello, skipn s hello).

(** ** Connections, errors and the history of library calls *)

(** A [*net.TCPConn] is [Some c] for the connection made by the dial number
    [c], and [None] for the nil pointer. *)
Definition connid := nat.

Inductive error :=
| EINVAL
| NetError (code : nat).

(** One entry per call into a library that reaches the outside world. *)
Inductive event :=
| EvDial
| EvRead (c : connid) (len : nat)
| EvWrite (c : connid) (b : list byte)
| EvClose (c : connid)
| EvCloseRead (c : connid)
| EvCloseWrite (c : connid)
| EvSetReadDeadline (c : connid) (t : GoTime.Time)
| EvReadFrom (c : connid)
| EvSrcRead (len : nat).

Definition is_dial (e : event) : bool :=
  match e with EvDial => true | _ => false end.
Definition is_close (e : event) : bool :=
  match e with EvClose _ => true | _ => false end.

Definition dials (l : list event) : nat := length (filter is_dial l).
Definition closes (l : list event) : nat := length (filter is_close l).

(** What a method called on a nil [*net.TCPConn] does is decided by the net
    package and the language, not by the retrier, which never tests [r.conn]
    for nil.  The methods of the net package start with the guard
    [if !c.ok() { return syscall.EINVAL }]; a call that reaches the guard
    returns that error.  But [TCPConn] is [struct { conn }], and [Read],
    [Write], [Close] and [ok] are methods of the embedded [*conn]:
    [r.conn.Write(b)] is [(&r.conn.conn).Write(b)], and the language makes
    the evaluation of a field of a nil struct pointer, and of its address,
    a run-time panic, which happens before the guard.  Both behaviours are
    kept, as a parameter of the environment. *)
Inductive nil_behaviour :=
| NilError (e : error)
| NilPanic.

(** The outside world: every answer is a function of the history. *)
Record Env := {
  net_dial : list event -> option error;
  net_read : list event -> connid -> nat -> nat * option error;
  net_write : list event -> connid -> list byte -> nat * option error;
  net_close : list event -> connid -> option error;
  net_close_read : list event -> connid -> option error;
  net_close_write : list event -> connid -> option error;
  net_set_read_deadline : list event -> connid -> GoTime.Time -> option error;
  net_read_from : list event -> connid -> Z * option error;
  clock : list event -> GoTime.Time;
  rand_intn : list event -> nat -> nat;
  src_read : list event -> nat -> list byte * option error;
  nil_recv : nil_behaviour
}.

(** ** The retrier *)

(** A flag is a channel that is only ever closed. *)
Inductive flag := retryCompleteFlag | readCloseFlag | writeCloseFlag.

(** The fields of the retrier.  [retryComplete], [readClose] and
    [writeClose] are the states of the three flags, [true] for closed;
    [mutex] is [true] while the mutex is held.  The fields [network] and
    [addr] never change and only name the destination of [net.DialTCP]. *)
Record retrier := {
  mutex : bool;
  conn : option connid;
  timeout : GoTime.Duration;
  hello : list byte;
  retryComplete : bool;
  readClose : bool;
  writeClose : bool
}.

Record World := { rt : retrier; log : list event }.

Definition get_flag (f : flag) (r : retrier) : bool :=
  match f with
  | retryCompleteFlag => retryComplete r
  | readCloseFlag => readClose r
  | writeCloseFlag => writeClose r
  end.

Definition close_flag (f : flag) (r : retrier) : retrier :=
  match f with
  | retryCompleteFlag =>
      {| mutex := mutex r; conn := conn r; timeout := timeout r; hello := hello r;
         retryComplete := true; readClose := readClose r; writeClose := writeClose r |}
  | readCloseFlag =>
      {| mutex := mutex r; conn := conn r; timeout := timeout r; hello := hello r;
         retryComplete := retryComplete r; readClose := true; writeClose := writeClose r |}
  | writeCloseFlag =>
      {| mutex := mutex r; conn := conn r; timeout := timeout r; hello := hello r;
         retryComplete := retryComplete r; readClose := readClose r; writeClose := true |}
  end.

Definition set_mutex (m : bool) (r : retrier) : retrier :=
  {| mutex := m; conn := conn r; timeout := timeout r; hello := hello r;
     retryComplete := retryComplete r; readClose := readClose r; writeClose := writeClose r |}.

Definition set_conn (c : option connid) (r : retrier) : retrier :=
  {| mutex := mutex r; conn := c; timeout := timeout r; hello := hello r;
     retryComplete := retryComplete r; readClose := readClose r; writeClose := writeClose r |}.

Definition set_hello (h : list byte) (r : retrier) : retrier :=
  {| mutex := mutex r; conn := conn r; timeout := timeout r; hello := h;
     retryComplete := retryComplete r; readClose := readClose r; writeClose := writeClose r |}.

Definition with_rt (r : retrier) (w : World) : World := {| rt := r; log := log w |}.
Definition emit (e : event) (w : World) : World := {| rt := rt w; log := log w ++ [e] |}.

(** ** Commands and programs *)

Inductive action : Type -> Type :=
(* fields of the retrier *)
| GetConn : action (option connid)
| SetConn (c : option connid) : action unit
| GetHello : action (list byte)
| SetHello (h : list byte) : action unit
| GetTimeout : action GoTime.Duration
(* flags: closed(c), close(c), <-c *)
| Closed (f : flag) : action bool
| Close (f : flag) : action unit
| Await (f : flag) : action unit
(* r.mutex *)
| Lock : action unit
| Unlock : action unit
(* package net *)
| DialTCP : action (option connid * option error)
| ConnRead (c : option connid) (len : nat) : action (nat * option error)
| ConnWrite (c : option connid) (b : list byte) : action (nat * option error)
| ConnClose (c : option connid) : action (option error)
| ConnCloseRead (c : option connid) : action (option error)
| ConnCloseWrite (c : option connid) : action (option error)
| ConnSetReadDeadline (c : option connid) (t : GoTime.Time) : action (option error)
| ConnReadFrom (c : option connid) : action (Z * option error)
(* time.Now, rand.Intn, reader.Read *)
| Now : action GoTime.Time
| Intn (n : nat) : action nat
| SrcRead (len : nat) : action (list byte * option error).

(** A program is a tree of commands.  [Iter body s k] is a loop: [body]
    runs on the loop state [s] and either asks for another round ([inl]) or
    leaves the loop ([inr]) with a value for the rest [k]. *)
Inductive Prog (A : Type) : Type :=
| Ret (a : A)
| Act {X : Type} (a : action X) (k : X -> Prog A)
| Iter {S B : Type} (body : S -> Prog (S + B)) (s : S) (k : B -> Prog A).

Arguments Ret {A} a.
Arguments Act {A X} a k.
Arguments Iter {A S B} body s k.

Fixpoint bind {A B : Type} (p : Prog A) (f : A -> Prog B) : Prog B :=
  match p with
  | Ret a => f a
  | Act a k => Act a (fun x => bind (k x) f)
  | Iter body s k => Iter body s (fun b => bind (k b) f)
  end.

Definition perform {X : Type} (a : action X) : Prog X := Act a Ret.

(** What follows a round of the loop [Iter body _ k]. *)
Definition continue {S B A : Type} (body : S -> Prog (S + B)) (k : B -> Prog A)
  (r : S + B) : Prog A :=
  match r with
  | inl s' => Iter body s' k
  | inr b => k b
  end.

Declare Scope prog_scope.
Delimit Scope prog_scope with prog.
Notation "x <- p ;; q" := (bind p (fun x => q))
  (at level 61, p at next level, right associativity) : prog_scope.
Notation "' pat <- p ;; q" := (bind p (fun x => match x with pat => q end))
  (at level 61, pat pattern, p at next level, right associativity) : prog_scope.
Notation "p ;; q" := (bind p (fun _ => q))
  (at level 61, right associativity) : prog_scope.

(** ** Semantics of the commands *)

(** The effect of one command: it happens, it cannot happen yet (a receive
    on an open flag, a lock that is held), or the goroutine panics. *)
Inductive Effect (X : Type) : Type :=
| Performed (x : X) (w : World)
| Disabled
| Crashed.

Arguments Performed {X} x w.
Arguments Disabled {X}.
Arguments Crashed {X}.

(** The result of running a program up to its next scheduling point. *)
Inductive Outcome (A : Type) : Type :=
| Done (a : A) (w : World)
| Parked (p : Prog A) (w : World)
| Panic (w : World).

Arguments Done {A} a w.
Arguments Parked {A} p w.
Arguments Panic {A} w.

Definition is_nil (e : option error) : bool :=
  match e with None => true | Some _ => false end.

Section Semantics.
Variable env : Env.

(** A method called through a nil connection touches no connection. *)
Definition nil_call {X : Type} (res : error -> X) (w : World) : Effect X :=
  match nil_recv env with
  | NilError e => Performed (res e) w
  | NilPanic => Crashed
  end.

Definition do_action {X : Type} (a : action X) (w : World) : Effect X :=
  match a in action X return Effect X with
  | GetConn => Performed (conn (rt w)) w
  | SetConn c => Performed tt (with_rt (set_conn c (rt w)) w)
  | GetHello => Performed (hello (rt w)) w
  | SetHello h => Performed tt (with_rt (set_hello h (rt w)) w)
  | GetTimeout => Performed (timeout (rt w)) w
  | Closed f => Performed (get_flag f (rt w)) w
  | Close f =>
      (* closing a closed channel panics *)
      if get_flag f (rt w) then Crashed
      else Performed tt (with_rt (close_flag f (rt w)) w)
  | Await f => if get_flag f (rt w) then Performed tt w else Disabled
  | Lock =>
      if mutex (rt w) then Disabled
      else Performed tt (with_rt (set_mutex true (rt w)) w)
  | Unlock =>
      (* unlocking an unlocked mutex is a fatal error *)
      if mutex (rt w) then Performed tt (with_rt (set_mutex false (rt w)) w)
      else Crashed
  | DialTCP =>
      (* a failed dial returns a nil connection with its error *)
      match net_dial env (log w) with
      | None => Performed (Some (dials (log w)), None) (emit EvDial w)
      | Some e => Performed (None, Some e) (emit EvDial w)
      end
  | ConnRead None _ => nil_call (fun e => (0, Some e)) w
  | ConnRead (Some c) len =>
      let '(n, e) := net_read env (log w) c len in
      Performed (Nat.min n len, e) (emit (EvRead c len) w)
  | ConnWrite None _ => nil_call (fun e => (0, Some e)) w
  | ConnWrite (Some c) b =>
      let '(n, e) := net_write env (log w) c b in
      Performed (Nat.min n (length b), e) (emit (EvWrite c b) w)
  | ConnClose None => nil_call (fun e => Some e) w
  | ConnClose (Some c) => Performed (net_close env (log w) c) (emit (EvClose c) w)
  | ConnCloseRead None => nil_call (fun e => Some e) w
  | ConnCloseRead (Some c) =>
      Performed (net_close_read env (log w) c) (emit (EvCloseRead c) w)
  | ConnCloseWrite None => nil_call (fun e => Some e) w
  | ConnCloseWrite (Some c) =>
      Performed (net_close_write env (log w) c) (emit (EvCloseWrite c) w)
  | ConnSetReadDeadline None _ => nil_call (fun e => Some e) w
  | ConnSetReadDeadline (Some c) t =>
      Performed (net_set_read_deadline env (log w) c t) (emit (EvSetReadDeadline c t) w)
  | ConnReadFrom None => nil_call (fun e => (0%Z, Some e)) w
  | ConnReadFrom (Some c) =>
      let '(n, e) := net_read_from env (log w) c in
      Performed (GoTime.wrap64 n, e) (emit (EvReadFrom c) w)
  | Now => Performed (clock env (log w)) w
  | Intn n => Performed (rand_intn env (log w) n mod n) w
  | SrcRead len =>
      let '(data, e) := src_read env (log w) len in
      Performed (firstn len data, e) (emit (EvSrcRead len) w)
  end.

(** [run p w] executes [p] until it returns, panics, or reaches a
    scheduling point: a command that cannot happen yet, or the back edge of
    a loop.  A parked program is resumed by running it again. *)
Fixpoint run {A : Type} (p : Prog A) (w : World) : Outcome A :=
  match p with
  | Ret a => Done a w
  | Act a k =>
      match do_action a w with
      | Performed x w' => run (k x) w'
      | Disabled => Parked (Act a k) w
      | Crashed => Panic w
      end
  | Iter body s k =>
      match run (body s) w with
      | Done (inl s') w' => Parked (Iter body s' k) w'
      | Done (inr b) w' => run (k b) w'
      | Parked q w' => Parked (bind q (continue body k)) w'
      | Panic w' => Panic w'
      end
  end.
End Semantics.

(** ** The methods of the retrier *)

Local Open Scope prog_scope.

Definition closed (f : flag) : Prog bool := perform (Closed f).
Definition readClosed : Prog bool := closed readCloseFlag.
Definition writeClosed : Prog bool := closed writeCloseFlag.
Definition retryCompleted : Prog bool := closed retryCompleteFlag.

(** [splitHello], lines 157-173. *)
Definition splitHello (hello : list byte) : Prog (list byte * list byte) :=
  if length hello =? 0 then Ret (hello, hello)
  else
    r <- perform (Intn (MAX_SPLIT + 1 - MIN_SPLIT)) ;;
    Ret (split_at (MIN_SPLIT + r) hello).

(** [retry], lines 123-146.  The result [n] is still 0 at the early returns. *)
Definition retry (buf : nat) : Prog (nat * option error) :=
  old <- perform GetConn ;;
  _ <- perform (ConnClose old) ;;
  '(c, err) <- perform DialTCP ;;
  perform (SetConn c) ;;
  if negb (is_nil err) then Ret (0, err)
  else
    h <- perform GetHello ;;
    '(first, second) <- splitHello h ;;
    c <- perform GetConn ;;
    '(_, err) <- perform (ConnWrite c first) ;;
    if negb (is_nil err) then Ret (0, err)
    else
      c <- perform GetConn ;;
      '(_, err) <- perform (ConnWrite c second) ;;
      if negb (is_nil err) then Ret (0, err)
      else
        rc <- readClosed ;;
        (if rc then c <- perform GetConn ;; _ <- perform (ConnCloseRead c) ;; Ret tt
         else Ret tt) ;;
        wc <- writeClosed ;;
        (if wc then c <- perform GetConn ;; _ <- perform (ConnCloseWrite c) ;; Ret tt
         else Ret tt) ;;
        c <- perform GetConn ;;
        perform (ConnRead c buf).

(** [Read], lines 104-121; [buf] is the length of the caller's buffer. *)
Definition Read (buf : nat) : Prog (nat * option error) :=
  c <- perform GetConn ;;
  '(n, err) <- perform (ConnRead c buf) ;;
  if (n =? 0) && is_nil err then Ret (n, err)
  else
    done <- retryCompleted ;;
    if negb done then
      perform Lock ;;
      '(n, err) <- (if negb (is_nil err) then retry buf else Ret (n, err)) ;;
      perform (Close retryCompleteFlag) ;;
      perform (SetHello []) ;;
      perform Unlock ;;
      Ret (n, err)
    else Ret (n, err).

(** [CloseRead], lines 148-155. *)
Definition CloseRead : Prog (option error) :=
  rc <- readClosed ;;
  (if negb rc then perform (Close readCloseFlag) else Ret tt) ;;
  perform Lock ;;
  c <- perform GetConn ;;
  e <- perform (ConnCloseRead c) ;;
  perform Unlock ;;
  Ret e.

(** [Write], lines 181-192: the locked write to the provisional socket.  The
    triple is the method's local [conn] with its results [n] and [err]. *)
Definition Write_provisional (b : list byte)
  : Prog (option connid * nat * option error) :=
  done <- retryCompleted ;;
  if negb done then
    perform Lock ;;
    done <- retryCompleted ;;
    st <- (if negb done then
             c <- perform GetConn ;;
             '(n, err) <- perform (ConnWrite c b) ;;
             h <- perform GetHello ;;
             perform (SetHello (h ++ firstn n b)) ;;
             now <- perform Now ;;
             t <- perform GetTimeout ;;
             _ <- perform (ConnSetReadDeadline c (GoTime.Add now t)) ;;
             Ret (c, n, err)
           else Ret (None, 0, None)) ;;
    perform Unlock ;;
    Ret st
  else Ret (None, 0, None).

(** [Write], lines 194-205: the body of [if err != nil], entered with the
    count [n] of the failed write. *)
Definition Write_after_error (b : list byte) (n : nat)
  : Prog (option connid * nat * option error) :=
  perform (Await retryCompleteFlag) ;;
  perform Lock ;;
  c <- perform GetConn ;;
  perform Unlock ;;
  '(m, err) <- perform (ConnWrite c (skipn n b)) ;;
  Ret (c, n + m, err).

(** [Write], lines 208-212: [if conn == nil], on the local [conn]. *)
Definition Write_final (b : list byte) (st : option connid * nat * option error)
  : Prog (nat * option error) :=
  let '(c, n, err) := st in
  match c with
  | None => c' <- perform GetConn ;; perform (ConnWrite c' b)
  | Some _ => Ret (n, err)
  end.

(** [Write], lines 176-213. *)
Definition Write (b : list byte) : Prog (nat * option error) :=
  '(c, n, err) <- Write_provisional b ;;
  st <- (if negb (is_nil err) then Write_after_error b n else Ret (c, n, err)) ;;
  Write_final b st.

(** [CloseWrite], lines 237-244. *)
Definition CloseWrite : Prog (option error) :=
  wc <- writeClosed ;;
  (if negb wc then perform (Close writeCloseFlag) else Ret tt) ;;
  perform Lock ;;
  c <- perform GetConn ;;
  e <- perform (ConnCloseWrite c) ;;
  perform Unlock ;;
  Ret e.

(** [ReadFrom], lines 225-228: the end of a round, with the results of
    [r.Write]. *)
Definition ReadFrom_count (bytes : Z) (res : nat * option error)
  : Prog (Z + (Z * option error + Z)) :=
  let '(n, err) := res in
  let bytes := GoTime.wrap64 (bytes + Z.of_nat n) in
  if negb (is_nil err) then Ret (inr (inl (bytes, err)))
  else Ret (inl bytes).

(** [ReadFrom], lines 216-229: one round of the loop on the running total
    [bytes].  [inl] goes round again; [inr (inl _)] is a [return] from inside
    the loop; [inr (inr _)] is the exit of the loop. *)
Definition ReadFrom_round (bytes : Z)
  : Prog (Z + (Z * option error + Z)) :=
  done <- retryCompleted ;;
  if negb done then
    '(data, err) <- perform (SrcRead 2048) ;;
    if negb (is_nil err) then Ret (inr (inl (bytes, err)))
    else
      res <- Write data ;;
      ReadFrom_count bytes res
  else Ret (inr (inr bytes)).

(** [ReadFrom], lines 231-234, after the loop or a [return] inside it. *)
Definition ReadFrom_rest (r : Z * option error + Z) : Prog (Z * option error) :=
  match r with
  | inl res => Ret res
  | inr bytes =>
      c <- perform GetConn ;;
      '(b, err) <- perform (ConnReadFrom c) ;;
      Ret (GoTime.wrap64 (bytes + b), err)
  end.

(** [ReadFrom], lines 215-235. *)
Definition ReadFrom : Prog (Z * option error) :=
  Iter ReadFrom_round 0%Z ReadFrom_rest.

(** [DialWithSplitRetry], lines 82-101: the stream with the history of its
    construction, or the error of the dial. *)
Definition DialWithSplitRetry (env : Env) : World + error :=
  let before := clock env [] in
  match net_dial env [] with
  | Some err => inr err
  | None =>
      let after := clock env [EvDial] in
      inl {| rt := {| mutex := false;
                      conn := Some (dials []);
                      timeout := Estimator.timeout before after;
                      hello := [];
                      retryComplete := false;
                      readClose := false;
                      writeClose := false |};
             log := [EvDial] |}
  end.

(** ** Goroutines calling into one stream *)

Inductive op :=
| OpRead (buf : nat)
| OpWrite (b : list byte)
| OpReadFrom
| OpCloseRead
| OpCloseWrite.

Inductive result :=
| ResIO (n : nat) (err : option error)
| ResCopy (bytes : Z) (err : option error)
| ResClose (err : option error).

Definition ret_io (r : nat * option error) : Prog result :=
  Ret (ResIO (fst r) (snd r)).
Definition ret_copy (r : Z * option error) : Prog result :=
  Ret (ResCopy (fst r) (snd r)).
Definition ret_close (e : option error) : Prog result := Ret (ResClose e).

Definition call (o : op) : Prog result :=
  match o with
  | OpRead buf => bind (Read buf) ret_io
  | OpWrite b => bind (Write b) ret_io
  | OpReadFrom => bind ReadFrom ret_copy
  | OpCloseRead => bind CloseRead ret_close
  | OpCloseWrite => bind CloseWrite ret_close
  end.

(** The stream, the calls that are parked at a scheduling point, and whether
    the process has panicked. *)
Record Sys := {
  world : World;
  parked : list (Prog result);
  crashed : bool
}.

(** A step of the system: a goroutine calls a method, or the parked call
    number [i] is resumed.  Either runs up to the next scheduling point. *)
Inductive label :=
| Call (o : op)
| Resume (i : nat).

Definition start (w : World) : Sys :=
  {| world := w; parked := []; crashed := false |}.

Definition settle (o : Outcome result) (before after : list (Prog result)) : Sys :=
  match o with
  | Done _ w => {| world := w; parked := before ++ after; crashed := false |}
  | Parked p w => {| world := w; parked := before ++ p :: after; crashed := false |}
  | Panic w => {| world := w; parked := before ++ after; crashed := true |}
  end.

Definition sys_step (env : Env) (l : label) (s : Sys) : Sys :=
  if crashed s then s
  else
    match l with
    | Call o => settle (run env (call o) (world s)) (parked s) []
    | Resume i =>
        match nth_error (parked s) i with
        | Some p => settle (run env p (world s)) (firstn i (parked s)) (skipn (S i) (parked s))
        | None => s
        end
    end.

Definition sys_run (env : Env) (ls : list label) (s : Sys) : Sys :=
  fold_left (fun s l => sys_step env l s) ls s.

(** The calls that can be parked: a [Write] waiting for the retry to be
    decided, a [ReadFrom] at the head of its loop, and a [ReadFrom] whose
    [Write] is waiting. *)
Definition Write_parked (b : list byte) (n : nat) : Prog (nat * option error) :=
  bind (Write_after_error b n) (Write_final b).

Definition ReadFrom_parked (bytes : Z) : Prog result :=
  Iter ReadFrom_round bytes (fun r => bind (ReadFrom_rest r) ret_copy).

Definition ReadFrom_Write_parked (data : list byte) (n : nat) (bytes : Z) : Prog result :=
  bind (bind (Write_parked data n) (ReadFrom_count bytes))
       (continue ReadFrom_round (fun r => bind (ReadFrom_rest r) ret_copy)).

Inductive parked_call : Prog result -> Prop :=
| parked_Write b n : parked_call (bind (Write_parked b n) ret_io)
| parked_ReadFrom bytes : parked_call (ReadFrom_parked bytes)
| parked_ReadFrom_Write data n bytes : parked_call (ReadFrom_Write_parked data n bytes).

(** ** Invariants and the two kinds of step *)

(** What holds of the stream between any two steps, also after a panic. *)
Record stream_inv (w : World) : Prop := {
  inv_once : closes (log w) <= 1;
  inv_dials : dials (log w) = 1 + closes (log w);
  inv_open : retryComplete (rt w) = false ->
             conn (rt w) = Some 0 /\ closes (log w) = 0;
  inv_hello : retryComplete (rt w) = true -> hello (rt w) = []
}.

Definition sys_inv (s : Sys) : Prop :=
  stream_inv (world s) /\
  (crashed s = false ->
   mutex (rt (world s)) = false /\ Forall parked_call (parked s)) /\
  (crashed s = true ->
   retryComplete (rt (world s)) = true /\ conn (rt (world s)) = None).


(** The hello grew by the bytes that a write to the provisional socket
    reported as written. *)
Definition appended (env : Env) (w w' : World) : Prop :=
  retryComplete (rt w) = false /\
  exists mid c b post,
    conn (rt w) = Some c /\
    log w' = (log w ++ mid) ++ EvWrite c b :: post /\
    hello (rt w') = hello (rt w) ++ firstn (fst (net_write env (log w ++ mid) c b)) b.

(** A step that leaves the retry question as it was. *)
Record quiet (env : Env) (w w' : World) : Prop := {
  quiet_conn : conn (rt w') = conn (rt w);
  quiet_timeout : timeout (rt w') = timeout (rt w);
  quiet_retry : retryComplete (rt w') = retryComplete (rt w);
  quiet_read : readClose (rt w) = true -> readClose (rt w') = true;
  quiet_write : writeClose (rt w) = true -> writeClose (rt w') = true;
  quiet_log : exists new, log w' = log w ++ new /\ dials new = 0 /\ closes new = 0;
  quiet_hello : hello (rt w') = hello (rt w) \/ appended env w w'
}.

(** The step of [Read buf] that settles the retry question. *)
Record decided (env : Env) (buf : nat) (w w' : World) : Prop := {
  dec_open : retryComplete (rt w) = false;
  dec_closed : retryComplete (rt w') = true;
  dec_hello : hello (rt w') = [];
  dec_timeout : timeout (rt w') = timeout (rt w);
  dec_read : readClose (rt w') = readClose (rt w);
  dec_write : writeClose (rt w') = writeClose (rt w);
  dec_cause :
    exists c n err,
      conn (rt w) = Some c /\
      net_read env (log w) c buf = (n, err) /\
      match err with
      | None =>
          conn (rt w') = Some c /\ log w' = log w ++ [EvRead c buf]
      | Some _ =>
          exists rest,
            log w' = log w ++ EvRead c buf :: EvClose c :: EvDial :: rest /\
            dials rest = 0 /\ closes rest = 0
      end
}.

(** What one run of a call, from the world [w], may end in.  [o] is the
    buffer length when the call is a [Read]. *)
Definition after (env : Env) (o : option nat) (w : World) (out : Outcome result) : Prop :=
  match out with
  | Done _ w' =>
      mutex (rt w') = false /\
      (quiet env w w' \/ exists buf, o = Some buf /\ decided env buf w w')
  | Parked p w' => mutex (rt w') = false /\ parked_call p /\ quiet env w w'
  | Panic w' =>
      quiet env w w' /\ retryComplete (rt w) = true /\ conn (rt w) = None
  end.

Definition read_buffer (l : label) : option nat :=
  match l with
  | Call (OpRead buf) => Some buf
  | _ => None
  end.

Definition outcome_world {A : Type} (out : Outcome A) : World :=
  match out with
  | Done _ w | Parked _ w | Panic w => w
  end.

(** One step either leaves the retry question alone or is the [Read] that
    settles it. *)
Definition step_kind (env : Env) (l : label) (w w' : World) : Prop :=
  quiet env w w' \/
  exists buf, l = Call (OpRead buf) /\ decided env buf w w'.

(** The result of a call that only invokes a method on a nil connection:
    the error of the net package or a panic, with the history still [l]. *)
Definition nil_result {A : Type} (env : Env) (res : error -> A)
  (out : Outcome A) (l : list event) : Prop :=
  match nil_recv env, out with
  | NilError e, Done a w => a = res e /\ log w = l
  | NilPanic, Panic w => log w = l
  | _, _ => False
  end.

(** ** Two goroutines, command by command *)

(** The stream is made for two goroutines: one calls [Read] and
    [CloseRead], the other [Write], [ReadFrom] and [CloseWrite].  Here each
    of the two runs one call at a time and is preempted between any two
    commands: a held mutex is a command that cannot happen yet, like a
    receive from an open flag. *)

Inductive Progress (A : Type) : Type :=
| Returned (a : A)
| Stepped (p : Prog A) (w : World)
| Blocked
| Panicked.

Arguments Returned {A} a.
Arguments Stepped {A} p w.
Arguments Blocked {A}.
Arguments Panicked {A}.

(** One command of a program.  Entering a round of a loop is a step of its
    own, which leaves the world as it is. *)
Definition advance {A : Type} (env : Env) (p : Prog A) (w : World) : Progress A :=
  match p with
  | Ret a => Returned a
  | Act a k =>
      match do_action env a w with
      | Performed x w' => Stepped (k x) w'
      | Disabled => Blocked
      | Crashed => Panicked
      end
  | Iter body s k => Stepped (bind (body s) (continue body k)) w
  end.

(** The stream, the call that each goroutine is in, if any, and whether
    the process has panicked. *)
Record Duo := {
  shared : World;
  reader : option (Prog result);
  writer : option (Prog result);
  panicked : bool
}.

Inductive move :=
| ReaderCalls (o : op)
| WriterCalls (o : op)
| ReaderSteps
| WriterSteps.

Definition reader_role (o : op) : bool :=
  match o with
  | OpRead _ | OpCloseRead => true
  | _ => false
  end.

Definition writer_role (o : op) : bool := negb (reader_role o).

Definition duo_start (w : World) : Duo :=
  {| shared := w; reader := None; writer := None; panicked := false |}.

(** A goroutine that is in no call makes a call of its role; a goroutine
    that is in a call runs its next command, and is in no call when the
    call has returned. *)
Definition duo_step (env : Env) (m : move) (s : Duo) : Duo :=
  if panicked s then s
  else
    match m with
    | ReaderCalls o =>
        match reader s with
        | None =>
            if reader_role o
            then {| shared := shared s; reader := Some (call o);
                    writer := writer s; panicked := false |}
            else s
        | Some _ => s
        end
    | WriterCalls o =>
        match writer s with
        | None =>
            if writer_role o
            then {| shared := shared s; reader := reader s;
                    writer := Some (call o); panicked := false |}
            else s
        | Some _ => s
        end
    | ReaderSteps =>
        match reader s with
        | None => s
        | Some p =>
            match advance env p (shared s) with
            | Returned _ =>
                {| shared := shared s; reader := None;
                   writer := writer s; panicked := false |}
            | Stepped q w' =>
                {| shared := w'; reader := Some q;
                   writer := writer s; panicked := false |}
            | Blocked => s
            | Panicked =>
                {| shared := shared s; reader := reader s;
                   writer := writer s; panicked := true |}
            end
        end
    | WriterSteps =>
        match writer s with
        | None => s
        | Some p =>
            match advance env p (shared s) with
            | Returned _ =>
                {| shared := shared s; reader := reader s;
                   writer := None; panicked := false |}
            | Stepped q w' =>
                {| shared := w'; reader := reader s;
                   writer := Some q; panicked := false |}
            | Blocked => s
            | Panicked =>
                {| shared := shared s; reader := reader s;
                   writer := writer s; panicked := true |}
            end
        end
    end.

Definition duo_run (env : Env) (ms : list move) (s : Duo) : Duo :=
  fold_left (fun s m => duo_step env m s) ms s.

(** ** The discipline of the mutex *)

(** What the commands that remain of a call may do is told by a phase of
    the goroutine: [allowed] says which command may come next in a phase,
    [next] the phase after it, given its answer.  A call ends in the phase
    [out], and so does each round of a loop. *)
Section Discipline.
Variable phase : Type.
Variable out : phase.
Variable allowed : phase -> forall X : Type, action X -> Prop.
Variable next : phase -> forall X : Type, action X -> X -> phase.

Fixpoint follows {A : Type} (ph : phase) (p : Prog A) : Prop :=
  match p with
  | Ret _ => ph = out
  | Act a k => allowed ph a /\ forall x, follows (next ph a x) (k x)
  | Iter body s k =>
      ph = out /\ (forall s', follows out (body s')) /\
      (forall b, follows out (k b))
  end.
End Discipline.

(** The writer: outside the mutex; inside it; inside it having seen
    [retryCompleteFlag] open (line 183); having read [r.conn] (line 184);
    having written [b] with the count [n] (line 185); having read the hello
    [h] (line 186); having appended. *)
Inductive wphase :=
| WOut
| WIn
| WOpen
| WConn (c : option connid)
| WWrote (b : list byte) (n : nat)
| WRead (b : list byte) (n : nat) (h : list byte)
| WAppended.

(** The writer sets the hello only to [h ++ b[:n]] in the phase [WRead b n h],
    never sets [r.conn] and never closes [retryCompleteFlag]. *)
Definition wallowed (ph : wphase) (X : Type) (a : action X) : Prop :=
  match a with
  | Lock => ph = WOut
  | Unlock => ph <> WOut
  | SetHello h' => exists b n h, ph = WRead b n h /\ h' = h ++ firstn n b
  | SetConn _ => False
  | Close f => f <> retryCompleteFlag
  | ConnWrite c _ => match ph with WConn c' => c = c' | _ => True end
  | _ => True
  end.

Definition wnext (ph : wphase) (X : Type) (a : action X) : X -> wphase :=
  match a in action X return X -> wphase with
  | Lock => fun _ => WIn
  | Unlock => fun _ => WOut
  | SetHello _ => fun _ => WAppended
  | Closed retryCompleteFlag =>
      fun x => match ph with WIn => if x then WIn else WOpen | _ => ph end
  | GetConn => fun x => match ph with WOpen => WConn x | _ => ph end
  | ConnWrite _ b =>
      fun x => match ph with WConn _ => WWrote b (fst x) | _ => ph end
  | GetHello => fun x => match ph with WWrote b n => WRead b n x | _ => ph end
  | _ => fun _ => ph
  end.

(** The reader: outside the mutex; inside it; inside it having set
    [r.conn] (line 125); having closed [retryCompleteFlag] (line 116);
    having cleared the hello (line 117). *)
Inductive rphase :=
| ROut
| RIn
| RSet
| RClosed
| RCleared.

(** The reader sets [r.conn] and closes [retryCompleteFlag] only inside the
    mutex; once it has set [r.conn] it closes the flag before it leaves;
    and the command after the close of the flag clears the hello. *)
Definition rallowed (ph : rphase) (X : Type) (a : action X) : Prop :=
  match a with
  | Lock => ph = ROut
  | Unlock => ph = RIn \/ ph = RCleared
  | SetConn _ => ph = RIn \/ ph = RSet
  | Close retryCompleteFlag => ph = RIn \/ ph = RSet
  | SetHello h => ph = RClosed /\ h = []
  | _ => ph <> RClosed
  end.

Definition rnext (ph : rphase) (X : Type) (a : action X) : X -> rphase :=
  match a in action X return X -> rphase with
  | Lock => fun _ => RIn
  | Unlock => fun _ => ROut
  | SetConn _ => fun _ => RSet
  | Close retryCompleteFlag => fun _ => RClosed
  | SetHello _ => fun _ => RCleared
  | _ => fun _ => ph
  end.

Definition reader_follows {A : Type} : rphase -> Prog A -> Prop :=
  follows ROut rallowed rnext.
Definition writer_follows {A : Type} : wphase -> Prog A -> Prop :=
  follows WOut wallowed wnext.

(** The history holds a write of [b] to the connection of the retrier, and
    [n] is the count that the write returned. *)
Definition wrote (env : Env) (w : World) (b : list byte) (n : nat) : Prop :=
  exists pre c post,
    conn (rt w) = Some c /\
    log w = pre ++ EvWrite c b :: post /\
    n = Nat.min (fst (net_write env pre c b)) (length b).

(** What the writer knows in its phase. *)
Definition writer_knows (env : Env) (ph : wphase) (w : World) : Prop :=
  match ph with
  | WOut | WIn | WAppended => True
  | WOpen => retryComplete (rt w) = false
  | WConn c => retryComplete (rt w) = false /\ conn (rt w) = c
  | WWrote b n => retryComplete (rt w) = false /\ wrote env w b n
  | WRead b n h =>
      retryComplete (rt w) = false /\ wrote env w b n /\ hello (rt w) = h
  end.

Definition thread_follows {phase : Type} (out : phase)
  (f : phase -> Prog result -> Prop) (ph : phase) (t : option (Prog result)) : Prop :=
  match t with
  | None => ph = out
  | Some p => f ph p
  end.

(** The invariant of the two goroutines.  In the shared state: the mutex
    is held exactly when one of them is inside it, and never by both; the
    writer knows what its phase says; the retrier has a connection unless
    the flag is closed or the reader is about to close it; and with the
    flag closed the hello is empty, but for the reader that has closed the
    flag and not yet cleared the hello. *)
Record world_inv (env : Env) (w : World) (rp : rphase) (wp : wphase) : Prop := {
  wi_mutex : mutex (rt w)
             = match rp, wp with ROut, WOut => false | _, _ => true end;
  wi_one : rp = ROut \/ wp = WOut;
  wi_knows : writer_knows env wp w;
  wi_conn : conn (rt w) = None -> retryComplete (rt w) = true \/ rp = RSet;
  wi_closed : rp = RClosed -> retryComplete (rt w) = true;
  wi_hello : retryComplete (rt w) = true -> rp <> RClosed -> hello (rt w) = []
}.

(** And each goroutine follows its discipline. *)
Definition duo_inv (env : Env) (s : Duo) (rp : rphase) (wp : wphase) : Prop :=
  thread_follows ROut reader_follows rp (reader s) /\
  thread_follows WOut writer_follows wp (writer s) /\
  world_inv env (shared s) rp wp.

(** A command that leaves the mutex, the connection, the hello and
    [retryCompleteFlag] as they were. *)
Definition same_shared (w w' : World) : Prop :=
  mutex (rt w') = mutex (rt w) /\
  conn (rt w') = conn (rt w) /\
  hello (rt w') = hello (rt w) /\
  retryComplete (rt w') = retryComplete (rt w) /\
  exists new, log w' = log w ++ new.

(** How a step of the two goroutines changes the hello: not at all; or the
    reader, holding the mutex with the flag closed, clears it; or the
    writer, holding the mutex with the flag open, appends to it the bytes
    [b[:n]] of a write [b] to the connection of the retrier, [n] being the
    count that the write reported. *)
Definition hello_step (env : Env) (m : move) (w w' : World) : Prop :=
  hello (rt w') = hello (rt w) \/
  (m = ReaderSteps /\ mutex (rt w) = true /\ retryComplete (rt w) = true /\
   hello (rt w') = []) \/
  (m = WriterSteps /\ mutex (rt w) = true /\ retryComplete (rt w) = false /\
   exists pre c b post,
     conn (rt w) = Some c /\
     log w = pre ++ EvWrite c b :: post /\
     hello (rt w') = hello (rt w) ++ firstn (fst (net_write env pre c b)) b).

(** ** Sample networks *)

Definition reset : error := NetError 104.
Definition refused : error := NetError 111.
Definition broken : error := NetError 32.

Definition all_written (b : list byte) : nat * option error := (length b, None).
Definition cut_short (b : list byte) : nat * option error := (3, Some broken).

(** The first socket answers one empty read and then resets; a later socket
    returns data.  [redial] answers the dial of the retry, [write0] the
    writes to the first socket and [write1] the writes to a later one. *)
Definition sample_env (redial : option error)
  (write0 write1 : list byte -> nat * option error) (nil : nil_behaviour) : Env :=
  {| net_dial := fun l => match l with [] => None | _ => redial end;
     net_read := fun l c len =>
       if c =? 0 then (if length l <=? 1 then (0, None) else (0, Some reset))
       else (5, None);
     net_write := fun l c b => if c =? 0 then write0 b else write1 b;
     net_close := fun _ _ => None;
     net_close_read := fun _ _ => None;
     net_close_write := fun _ _ => None;
     net_set_read_deadline := fun _ _ _ => None;
     net_read_from := fun _ _ => (0%Z, None);
     clock := fun l => (Z.of_nat (length l) * 50000000)%Z;
     rand_intn := fun l _ => length l;
     src_read := fun _ _ => ([], None);
     nil_recv := nil |}.

Definition env_reset : Env :=
  sample_env None all_written all_written (NilError EINVAL).
Definition env_unreachable (nil : nil_behaviour) : Env :=
  sample_env (Some refused) cut_short all_written nil.

(** An 80-byte hello. *)
Definition payload : list byte := repeat x41 80.

(** The stream of a sample network, as [DialWithSplitRetry] returns it. *)
Definition fresh : World :=
  {| rt := {| mutex := false; conn := Some 0; timeout := 1300000000%Z; hello := [];
              retryComplete := false; readClose := false; writeClose := false |};
     log := [EvDial] |}.

(** ** Further definitions *)


(** A network whose first socket answers: every read returns five bytes,
    every write takes all its bytes, and the reader of [ReadFrom] has
    [chunk] to give, with the error [src_err]. *)
Definition env_answers (chunk : list byte) (src_err : option error) : Env :=
  {| net_dial := fun _ => None;
     net_read := fun _ _ _ => (5, None);
     net_write := fun _ _ b => all_written b;
     net_close := fun _ _ => None;
     net_close_read := fun _ _ => None;
     net_close_write := fun _ _ => None;
     net_set_read_deadline := fun _ _ _ => None;
     net_read_from := fun _ _ => (1000%Z, None);
     clock := fun l => (Z.of_nat (length l) * 50000000)%Z;
     rand_intn := fun l _ => length l;
     src_read := fun _ _ => (chunk, src_err);
     nil_recv := NilError EINVAL |}.

(** A network whose first socket takes three bytes of every write and fails
    every read, and whose later sockets take all they are given. *)
Definition env_lossy : Env :=
  {| net_dial := fun _ => None;
     net_read := fun _ c _ => if c =? 0 then (0, Some reset) else (5, None);
     net_write := fun _ c b => if c =? 0 then cut_short b else all_written b;
     net_close := fun _ _ => None;
     net_close_read := fun _ _ => None;
     net_close_write := fun _ _ => None;
     net_set_read_deadline := fun _ _ _ => None;
     net_read_from := fun _ _ => (0%Z, None);
     clock := fun l => (Z.of_nat (length l) * 50000000)%Z;
     rand_intn := fun l _ => length l;
     src_read := fun _ _ => ([], None);
     nil_recv := NilError EINVAL |}.

(** ** How a call can end *)

(** The calls of the writer role. *)
Definition writer_call (o : op) : bool :=
  match o with
  | OpWrite _ | OpReadFrom => true
  | _ => false
  end.

(** A call that parks does so with the flag open, and is a call of the
    writer role when [writer] says so; a call that panics does so where a
    call on a nil connection panics. *)
Definition waits_or_panics (env : Env) (w : World) (writer : bool)
  (out : Outcome result) : Prop :=
  match out with
  | Done _ _ => True
  | Parked _ _ => retryComplete (rt w) = false /\ writer = true
  | Panic _ => nil_recv env = NilPanic
  end.

(** A call that leaves the retrier without a connection either found it
    so or made a dial that failed. *)
Definition conn_kept (env : Env) (w : World) (out : Outcome result) : Prop :=
  conn (rt (outcome_world out)) = None ->
  conn (rt w) = None \/
  exists pre post e,
    log (outcome_world out) = (log w ++ pre) ++ EvDial :: post /\
    net_dial env (log w ++ pre) = Some e.

(** The history holds a dial, after the first, that failed. *)
Definition redial_failed (env : Env) (l : list event) : Prop :=
  exists pre post e,
    l = pre ++ EvDial :: post /\ pre <> [] /\ net_dial env pre = Some e.

(** ** What a connection was sent *)

(** The bytes handed to the writes on the connection [c], in order. *)
Definition sent (c : connid) (l : list event) : list byte :=
  flat_map (fun e => match e with
                     | EvWrite c' b => if c' =? c then b else []
                     | _ => []
                     end) l.

(** A network on which the first read returns five bytes. *)
Definition env_five : Env :=
  {| net_dial := fun _ => None;
     net_read := fun _ _ _ => (5, None);
     net_write := fun _ _ b => all_written b;
     net_close := fun _ _ => None;
     net_close_read := fun _ _ => None;
     net_close_write := fun _ _ => None;
     net_set_read_deadline := fun _ _ _ => None;
     net_read_from := fun _ _ => (0%Z, None);
     clock := fun l => (Z.of_nat (length l) * 50000000)%Z;
     rand_intn := fun l _ => length l;
     src_read := fun _ _ => ([], None);
     nil_recv := NilError EINVAL |}.

(** * Proofs *)

(** ** Counting events *)

Lemma dials_app (l l' : list event) : dials (l ++ l') = dials l + dials l'.
Proof. unfold dials. now rewrite filter_app, length_app. Qed.

Lemma closes_app (l l' : list event) : closes (l ++ l') = closes l + closes l'.
Proof. unfold closes. now rewrite filter_app, length_app. Qed.

Lemma firstn_min_length (A : Type) (n : nat) (l : list A) :
  firstn (Nat.min n (length l)) l = firstn n l.
Proof.
  destruct (Nat.le_ge_cases n (length l)) as [H|H].
  - now rewrite Nat.min_l.
  - rewrite Nat.min_r by exact H. now rewrite firstn_all, firstn_all2.
Qed.

(** ** Symbolic execution of the methods *)

Ltac exec :=
  cbn [run do_action bind perform nil_call closed readClosed writeClosed retryCompleted
       Read retry splitHello CloseRead CloseWrite Write Write_provisional
       Write_after_error Write_final Write_parked ReadFrom ReadFrom_round ReadFrom_count
       ReadFrom_rest ReadFrom_parked ReadFrom_Write_parked
       call ret_io ret_copy ret_close continue split_at
       rt log mutex conn timeout hello retryComplete readClose writeClose
       get_flag close_flag set_mutex set_conn set_hello with_rt emit
       negb andb is_nil fst snd].

Ltac split_oracle :=
  match goal with
  | |- context [net_read ?e ?l ?c ?n] =>
      let H := fresh "Hread" in destruct (net_read e l c n) as [? [?|]] eqn:H
  | |- context [net_write ?e ?l ?c ?b] =>
      let H := fresh "Hwrite" in destruct (net_write e l c b) as [? [?|]] eqn:H
  | |- context [net_dial ?e ?l] =>
      let H := fresh "Hdial" in destruct (net_dial e l) as [?|] eqn:H
  | |- context [net_read_from ?e ?l ?c] =>
      let H := fresh "Hcopy" in destruct (net_read_from e l c) as [? [?|]] eqn:H
  | |- context [src_read ?e ?l ?n] =>
      let H := fresh "Hsrc" in destruct (src_read e l n) as [? [?|]] eqn:H
  | |- context [nil_recv ?e] =>
      let H := fresh "Hnil" in destruct (nil_recv e) as [?|] eqn:H
  | |- context [length ?h =? 0] =>
      let H := fresh "Hlen" in destruct (length h =? 0) eqn:H
  | |- context [Nat.min ?n ?m =? 0] =>
      let H := fresh "Hzero" in destruct (Nat.min n m =? 0) eqn:H
  end.

Ltac crunch := repeat (exec; unfold nil_call, splitHello; try split_oracle).

Ltac flat :=
  cbv [with_rt emit set_mutex set_conn set_hello close_flag
       rt log mutex conn timeout hello retryComplete readClose writeClose].

(** The log grew by the events listed, none of them a dial or a close. *)
Ltac grown :=
  first
    [ exists []; rewrite app_nil_r; repeat split; reflexivity
    | rewrite <- ?app_assoc; cbn [app]; eexists; split;
      [ reflexivity | split; reflexivity ] ].

Ltac open_world w :=
  let m := fresh "m" in let c := fresh "c" in let t := fresh "t" in
  let h := fresh "h" in let rc := fresh "rc" in let rdc := fresh "rdc" in
  let wrc := fresh "wrc" in let l := fresh "l" in
  destruct w as [[m c t h rc rdc wrc] l];
  cbn [rt log mutex conn timeout hello retryComplete readClose writeClose] in *.

(** ** Running a sequence *)

Lemma run_bind_done (env : Env) :
  forall (A : Type) (p : Prog A) (B : Type) (f : A -> Prog B) w a w',
    run env p w = Done a w' -> run env (bind p f) w = run env (f a) w'.
Proof.
  induction p as [A a0|A X a0 k IH|A S B0 body IHb s k IHk];
    intros B f w a w' H; cbn in *.
  - inversion H; subst; reflexivity.
  - destruct (do_action env a0 w); try discriminate. eapply IH; eauto.
  - destruct (run env (body s) w) as [[s'|b] w1|q w1|w1]; try discriminate.
    eapply IHk; eauto.
Qed.

Lemma run_bind_panic (env : Env) :
  forall (A : Type) (p : Prog A) (B : Type) (f : A -> Prog B) w w',
    run env p w = Panic w' -> run env (bind p f) w = Panic w'.
Proof.
  induction p as [A a0|A X a0 k IH|A S B0 body IHb s k IHk];
    intros B f w w' H; cbn in *.
  - discriminate H.
  - destruct (do_action env a0 w); try discriminate; eauto.
    inversion H; subst; reflexivity.
  - destruct (run env (body s) w) as [[s'|b] w1|q w1|w1]; try discriminate; eauto.
    inversion H; subst; reflexivity.
Qed.

Lemma appended_here env w w' hist c b n e pre post :
  retryComplete (rt w) = false ->
  conn (rt w) = Some c ->
  hello (rt w') = hello (rt w) ++ firstn (Nat.min n (length b)) b ->
  log w' = hist ++ EvWrite c b :: post ->
  net_write env hist c b = (n, e) ->
  hist = log w ++ pre ->
  appended env w w'.
Proof.
  intros Ho Hc Hh Hl Hw ->. split; [exact Ho|].
  exists pre, c, b, post. rewrite Hw. cbn [fst].
  rewrite firstn_min_length in Hh. auto.
Qed.

Ltac appended_goal :=
  right; eapply appended_here;
  [ reflexivity | reflexivity | reflexivity
  | cbn; rewrite <- app_assoc; cbn [app]; reflexivity
  | eassumption
  | cbn; first [ reflexivity | symmetry; apply app_nil_r ] ].

Ltac quiet_goal :=
  constructor; cbn;
  [ reflexivity | reflexivity | reflexivity
  | intros; first [assumption | reflexivity]
  | intros; first [assumption | reflexivity]
  | grown
  | first [ left; reflexivity | appended_goal ] ].

Ltac decided_goal :=
  right; eexists; split; [reflexivity|];
  constructor; cbn;
  [ reflexivity | reflexivity | reflexivity | reflexivity | reflexivity | reflexivity
  | do 3 eexists; split; [reflexivity|]; split; [eassumption|]; cbn;
    first
      [ split; reflexivity
      | rewrite <- ?app_assoc; cbn [app]; eexists; split;
        [ reflexivity | split; reflexivity ] ] ].

Ltac after_goal :=
  unfold after;
  first
    [ split; [reflexivity|]; first [ left; quiet_goal | decided_goal ]
    | split; [reflexivity|]; split;
      [ first [ exact (parked_Write _ _) | exact (parked_ReadFrom _)
              | exact (parked_ReadFrom_Write _ _ _) ]
      | quiet_goal ]
    | split; [quiet_goal | split; reflexivity] ].

(** ** One run of each call *)

Lemma call_after (env : Env) (w : World) (o : op) :
  mutex (rt w) = false ->
  (retryComplete (rt w) = false -> exists c, conn (rt w) = Some c) ->
  after env (read_buffer (Call o)) w (run env (call o) w).
Proof.
  intros Hmutex Hconn. open_world w. subst m.
  destruct rc.
  - destruct o, c, rdc, wrc; crunch; flat; after_goal.
  - destruct Hconn as [c' ->]; [reflexivity|].
    destruct o, rdc, wrc; crunch; flat; after_goal.
Qed.

Lemma resume_after (env : Env) (w : World) (p : Prog result) :
  parked_call p ->
  mutex (rt w) = false ->
  (retryComplete (rt w) = false -> exists c, conn (rt w) = Some c) ->
  after env None w (run env p w).
Proof.
  intros Hp Hmutex Hconn. open_world w. subst m.
  destruct rc.
  - destruct Hp, c; crunch; flat; after_goal.
  - destruct Hconn as [c' ->]; [reflexivity|].
    destruct Hp; crunch; flat; after_goal.
Qed.

(** ** Steps of the system *)

Lemma quiet_refl (env : Env) (w : World) : quiet env w w.
Proof.
  constructor; auto.
  exists []. rewrite app_nil_r. repeat split; reflexivity.
Qed.

Lemma stream_inv_quiet (env : Env) (w w' : World) :
  stream_inv w -> quiet env w w' -> stream_inv w'.
Proof.
  intros [H1 H2 H3 H4] [Qc _ Qr _ _ (new & Ql & Qd & Qk) Qh].
  assert (Hc : closes (log w') = closes (log w))
    by (rewrite Ql, closes_app, Qk; lia).
  assert (Hd : dials (log w') = dials (log w))
    by (rewrite Ql, dials_app, Qd; lia).
  constructor.
  - lia.
  - lia.
  - rewrite Qr, Qc, Hc. exact H3.
  - rewrite Qr. intros Hclosed.
    destruct Qh as [-> | [Hopen _]]; [auto | congruence].
Qed.

Lemma stream_inv_decided (env : Env) (buf : nat) (w w' : World) :
  stream_inv w -> decided env buf w w' -> stream_inv w'.
Proof.
  intros [H1 H2 H3 H4] [Do Dc Dh _ _ _ (c & n & err & Hc & Hr & Hcase)].
  destruct (H3 Do) as [_ Hzero].
  assert (closes (log w') <= 1 /\ dials (log w') = 1 + closes (log w')) as [Ha Hb].
  { destruct err as [e|].
    - destruct Hcase as (rest & -> & Hd & Hk).
      rewrite closes_app, dials_app.
      change (EvRead c buf :: EvClose c :: EvDial :: rest)
        with ([EvRead c buf; EvClose c; EvDial] ++ rest).
      rewrite closes_app, dials_app, Hd, Hk. cbn. lia.
    - destruct Hcase as (_ & ->). rewrite closes_app, dials_app. cbn. lia. }
  constructor; auto. congruence.
Qed.

Lemma Forall_firstn_skipn (A : Type) (P : A -> Prop) (n m : nat) (l : list A) :
  Forall P l -> Forall P (firstn n l) /\ Forall P (skipn m l).
Proof.
  intros H. split.
  - rewrite <- (firstn_skipn n l) in H. now apply Forall_app in H.
  - rewrite <- (firstn_skipn m l) in H. now apply Forall_app in H.
Qed.

Lemma settle_spec (env : Env) (l : label) (s : Sys) (o : option nat)
      (out : Outcome result) (before rest : list (Prog result)) :
  (o = None \/ o = read_buffer l) ->
  stream_inv (world s) ->
  Forall parked_call before -> Forall parked_call rest ->
  after env o (world s) out ->
  world (settle out before rest) = outcome_world out /\
  sys_inv (settle out before rest) /\
  step_kind env l (world s) (world (settle out before rest)).
Proof.
  intros Ho Hinv Hb Hr Hafter.
  destruct out as [r w'|p w'|w']; cbn in *.
  - destruct Hafter as [Hm Hk]. split; [reflexivity|].
    assert (Hstep : step_kind env l (world s) w').
    { destruct Hk as [Hq | (buf & Hbuf & Hd)]; [left; exact Hq|].
      right. exists buf. split; [|exact Hd].
      destruct Ho as [-> | ->]; [discriminate|].
      destruct l as [[]|]; cbn in Hbuf; congruence. }
    split; [|exact Hstep].
    split; [|split]; cbn; try discriminate.
    + destruct Hstep as [Hq | (buf & _ & Hd)];
        eauto using stream_inv_quiet, stream_inv_decided.
    + intros _. split; [exact Hm|]. apply Forall_app; auto.
  - destruct Hafter as (Hm & Hp & Hq). split; [reflexivity|].
    split; [|left; exact Hq].
    split; [|split]; cbn; try discriminate.
    + eauto using stream_inv_quiet.
    + intros _. split; [exact Hm|]. apply Forall_app; auto.
  - destruct Hafter as (Hq & Hc & Hn). split; [reflexivity|].
    split; [|left; exact Hq].
    split; [|split]; cbn; try discriminate.
    + eauto using stream_inv_quiet.
    + intros _. destruct Hq as [Qc _ Qr _ _ _ _]. split; congruence.
Qed.

Lemma sys_step_spec (env : Env) (l : label) (s : Sys) :
  sys_inv s ->
  sys_inv (sys_step env l s) /\
  step_kind env l (world s) (world (sys_step env l s)).
Proof.
  intros Hs. pose proof Hs as (Hinv & Hlive & Hdead).
  unfold sys_step. destruct (crashed s) eqn:Hcr.
  - split; [exact Hs | left; apply quiet_refl].
  - destruct (Hlive eq_refl) as [Hm Hp].
    assert (Hc : retryComplete (rt (world s)) = false ->
                 exists c, conn (rt (world s)) = Some c).
    { intros Ho. exists 0. now apply (inv_open Hinv). }
    destruct l as [o|i].
    + eapply settle_spec; eauto using call_after.
    + destruct (nth_error (parked s) i) as [p|] eqn:Hnth.
      * destruct (Forall_firstn_skipn i (S i) Hp) as [Hf Hk].
        eapply settle_spec; eauto.
        apply resume_after; auto.
        rewrite Forall_forall in Hp. eauto using nth_error_In.
      * split; [exact Hs | left; apply quiet_refl].
Qed.

Lemma sys_run_cons (env : Env) (l : label) (ls : list label) (s : Sys) :
  sys_run env (l :: ls) s = sys_run env ls (sys_step env l s).
Proof. reflexivity. Qed.

Lemma sys_run_app (env : Env) (ls ls' : list label) (s : Sys) :
  sys_run env (ls ++ ls') s = sys_run env ls' (sys_run env ls s).
Proof. apply fold_left_app. Qed.

Lemma sys_run_inv (env : Env) (ls : list label) (s : Sys) :
  sys_inv s -> sys_inv (sys_run env ls s).
Proof.
  revert s. induction ls as [|l ls IH]; intros s Hs; [exact Hs|].
  rewrite sys_run_cons. apply IH. now apply sys_step_spec.
Qed.

Lemma start_inv (env : Env) (w0 : World) :
  DialWithSplitRetry env = inl w0 -> sys_inv (start w0).
Proof.
  unfold DialWithSplitRetry. destruct (net_dial env []); [discriminate|].
  intros [= <-]. split; [|split]; cbn; try discriminate.
  - constructor; cbn; auto; discriminate.
  - auto.
Qed.

Lemma reach_inv (env : Env) (w0 : World) (ls : list label) :
  DialWithSplitRetry env = inl w0 -> sys_inv (sys_run env ls (start w0)).
Proof. intros H. apply sys_run_inv. eapply start_inv; eauto. Qed.

(** Once the retry question is settled, every step is quiet. *)
Lemma closed_step_quiet (env : Env) (l : label) (s : Sys) :
  sys_inv s -> retryComplete (rt (world s)) = true ->
  quiet env (world s) (world (sys_step env l s)).
Proof.
  intros Hs Hc. destruct (sys_step_spec env l Hs) as [_ [Hq | (buf & _ & Hd)]];
    [exact Hq|].
  pose proof (dec_open Hd). congruence.
Qed.

Lemma closed_run_frozen (env : Env) (ls : list label) (s : Sys) :
  sys_inv s -> retryComplete (rt (world s)) = true ->
  retryComplete (rt (world (sys_run env ls s))) = true /\
  conn (rt (world (sys_run env ls s))) = conn (rt (world s)) /\
  hello (rt (world (sys_run env ls s))) = [] /\
  closes (log (world (sys_run env ls s))) = closes (log (world s)) /\
  dials (log (world (sys_run env ls s))) = dials (log (world s)).
Proof.
  revert s. induction ls as [|l ls IH]; intros s Hs Hc.
  - pose proof (inv_hello (proj1 Hs) Hc). cbn. auto.
  - pose proof (closed_step_quiet env l Hs Hc) as [Qc _ Qr _ _ (new & Ql & Qd & Qk) _].
    rewrite sys_run_cons.
    destruct (IH (sys_step env l s)) as (H1 & H2 & H3 & H4 & H5).
    + now apply sys_step_spec.
    + congruence.
    + rewrite H4, H5, H2, Ql, closes_app, dials_app.
      repeat split; auto; lia.
Qed.

(** * The claims *)

(** ** The timeout estimator *)

Lemma wrap64_small (z : Z) :
  (GoTime.min_int64 <= z <= GoTime.max_int64)%Z -> GoTime.wrap64 z = z.
Proof.
  unfold GoTime.wrap64, GoTime.min_int64, GoTime.max_int64. intros H.
  rewrite Z.mod_small; lia.
Qed.

Lemma wrap64_add_r (a b : Z) :
  GoTime.wrap64 (a + GoTime.wrap64 b) = GoTime.wrap64 (a + b).
Proof.
  unfold GoTime.wrap64.
  replace (a + ((b + 2 ^ 63) mod 2 ^ 64 - 2 ^ 63) + 2 ^ 63)%Z
    with (a + (b + 2 ^ 63) mod 2 ^ 64)%Z by lia.
  rewrite Zplus_mod_idemp_r. f_equal. f_equal. lia.
Qed.

(** C9: for timestamps whose estimate fits a Duration, [timeout] is exactly
    1200 milliseconds plus twice the round-trip time [after - before]. *)
Theorem timeout_exact (before after : GoTime.Time) :
  (GoTime.min_int64 <= 1200 * GoTime.Millisecond + 2 * (after - before)
   <= GoTime.max_int64)%Z ->
  Estimator.timeout before after
  = (1200 * GoTime.Millisecond + 2 * (after - before))%Z.
Proof.
  intros H. unfold Estimator.timeout.
  rewrite wrap64_add_r.
  assert (Hsub : GoTime.Sub after before = (after - before)%Z).
  { unfold GoTime.Sub.
    unfold GoTime.min_int64, GoTime.max_int64, GoTime.Millisecond in *.
    destruct (Z.ltb_spec (after - before) (- 2 ^ 63)); [lia|].
    destruct (Z.ltb_spec (2 ^ 63 - 1) (after - before)); [lia|].
    reflexivity. }
  rewrite Hsub. now apply wrap64_small.
Qed.

Lemma timeout_exact_witness :
  (GoTime.min_int64 <= 1200 * GoTime.Millisecond + 2 * (50000000 - 0)
   <= GoTime.max_int64)%Z /\
  Estimator.timeout 0%Z 50000000%Z
  = (1200 * GoTime.Millisecond + 2 * (50000000 - 0))%Z.
Proof.
  assert (H : (GoTime.min_int64 <= 1200 * GoTime.Millisecond + 2 * (50000000 - 0)
               <= GoTime.max_int64)%Z) by (vm_compute; split; discriminate).
  split; [exact H | exact (timeout_exact 0%Z 50000000%Z H)].
Defined.

(** ** The split *)

Lemma split_at_concat (s : nat) (hello : list byte) :
  fst (split_at s hello) ++ snd (split_at s hello) = hello.
Proof. unfold split_at. cbn. apply firstn_skipn. Qed.

Lemma split_at_offset (s : nat) (hello : list byte) :
  MIN_SPLIT <= s <= MAX_SPLIT ->
  Nat.min MIN_SPLIT (length hello / 2) <= length (fst (split_at s hello))
  <= Nat.min MAX_SPLIT (length hello / 2).
Proof.
  unfold split_at, MIN_SPLIT, MAX_SPLIT. cbn [fst]. intros Hs.
  pose proof (Nat.Div0.div_le_upper_bound (length hello) 2 (length hello)) as Hhalf.
  assert (length hello / 2 <= length hello) by (apply Hhalf; lia).
  rewrite length_firstn.
  destruct (Nat.ltb_spec (length hello / 2) s); lia.
Qed.

(** C2: the two slices of [splitHello] concatenate to the payload; both are
    empty for an empty payload; otherwise the offset, the length of the
    first slice, lies in [min(32, L/2), min(64, L/2)], and so it does for
    every draw [s] in [32, 64]. *)
Theorem splitHello_correct (env : Env) (w : World) (hello : list byte) :
  (exists first second,
     run env (splitHello hello) w = Done (first, second) w /\
     first ++ second = hello /\
     (length hello = 0 -> first = [] /\ second = []) /\
     (0 < length hello ->
      Nat.min 32 (length hello / 2) <= length first
      <= Nat.min 64 (length hello / 2))) /\
  (forall s, 32 <= s <= 64 ->
     fst (split_at s hello) ++ snd (split_at s hello) = hello /\
     Nat.min 32 (length hello / 2) <= length (fst (split_at s hello))
     <= Nat.min 64 (length hello / 2)).
Proof.
  split.
  - unfold splitHello. destruct (Nat.eqb_spec (length hello) 0) as [Hz|Hnz].
    + exists hello, hello. cbn.
      apply length_zero_iff_nil in Hz. subst hello. repeat split; auto; cbn; lia.
    + pose (r := rand_intn env (log w) (MAX_SPLIT + 1 - MIN_SPLIT)
                 mod (MAX_SPLIT + 1 - MIN_SPLIT)).
      exists (fst (split_at (MIN_SPLIT + r) hello)),
             (snd (split_at (MIN_SPLIT + r) hello)).
      split; [reflexivity|]. split; [apply split_at_concat|].
      split; [intros; contradiction|]. intros _.
      apply split_at_offset.
      assert (r < MAX_SPLIT + 1 - MIN_SPLIT)
        by (apply Nat.mod_upper_bound; discriminate).
      unfold MAX_SPLIT, MIN_SPLIT in *. lia.
  - intros s Hs. split; [apply split_at_concat | now apply split_at_offset].
Qed.

(** ** At most one retry *)

(** C1: on every stream made by [DialWithSplitRetry], after any sequence of
    calls and resumptions, the retry procedure has run at most once (one
    close of the old connection and one redial); a step that runs it is a
    [Read] whose read of the current connection failed while
    [retryCompleteFlag] was open; and once the flag is closed no sequence of
    steps runs it again. *)
Theorem retry_at_most_once (env : Env) (w0 : World) (ls : list label) :
  DialWithSplitRetry env = inl w0 ->
  let s := sys_run env ls (start w0) in
  closes (log (world s)) <= 1 /\
  dials (log (world s)) = 1 + closes (log (world s)) /\
  (forall l,
     closes (log (world s)) < closes (log (world (sys_step env l s))) ->
     exists buf c n e,
       l = Call (OpRead buf) /\
       retryComplete (rt (world s)) = false /\
       conn (rt (world s)) = Some c /\
       net_read env (log (world s)) c buf = (n, Some e)) /\
  (retryComplete (rt (world s)) = true ->
   forall ls',
     retryComplete (rt (world (sys_run env ls' s))) = true /\
     closes (log (world (sys_run env ls' s))) = closes (log (world s)) /\
     dials (log (world (sys_run env ls' s))) = dials (log (world s))).
Proof.
  intros Hdial s. pose proof (reach_inv env ls Hdial) as Hs. fold s in Hs.
  split; [apply (inv_once (proj1 Hs))|].
  split; [apply (inv_dials (proj1 Hs))|].
  split.
  - intros l Hmore.
    destruct (sys_step_spec env l Hs) as [_ [Hq | (buf & -> & Hd)]].
    + destruct Hq as [_ _ _ _ _ (new & Hl & _ & Hk) _].
      rewrite Hl, closes_app, Hk in Hmore. lia.
    + pose proof (dec_open Hd) as Hopen.
      destruct (dec_cause Hd) as (c & n & [e|] & Hc & Hr & Hcase).
      * exists buf, c, n, e. auto.
      * destruct Hcase as [_ Hl]. rewrite Hl, closes_app in Hmore.
        cbn in Hmore. lia.
  - intros Hclosed ls'.
    destruct (closed_run_frozen env ls' Hs Hclosed) as (H1 & _ & _ & H4 & H5).
    auto.
Qed.

Lemma retry_at_most_once_witness :
  DialWithSplitRetry env_reset = inl fresh /\
  closes (log (world (sys_run env_reset
                        [Call (OpWrite payload); Call (OpRead 16)]
                        (start fresh)))) <= 1.
Proof.
  assert (H : DialWithSplitRetry env_reset = inl fresh) by reflexivity.
  split; [exact H|].
  exact (proj1 (retry_at_most_once env_reset
                  [Call (OpWrite payload); Call (OpRead 16)] H)).
Defined.

(** ** The empty read *)

(** C7: a read of the current connection that returns no bytes and no error
    is passed through: [Read] returns (0, nil), and the retrier is as it
    was, so the flag is still open, the hello untouched and no retry run. *)
Theorem Read_empty_passthrough (env : Env) (w : World) (c : connid) (buf n : nat) :
  conn (rt w) = Some c ->
  net_read env (log w) c buf = (n, None) ->
  Nat.min n buf = 0 ->
  run env (Read buf) w
  = Done (0, None) {| rt := rt w; log := log w ++ [EvRead c buf] |}.
Proof.
  intros Hc Hr Hn. unfold Read. exec. rewrite Hc. exec. rewrite Hr. exec.
  rewrite Hn. reflexivity.
Qed.

Lemma Read_empty_passthrough_witness :
  conn (rt fresh) = Some 0 /\
  net_read env_reset (log fresh) 0 16 = (0, None) /\
  Nat.min 0 16 = 0 /\
  run env_reset (Read 16) fresh
  = Done (0, None) {| rt := rt fresh; log := log fresh ++ [EvRead 0 16] |}.
Proof.
  split; [reflexivity|]. split; [reflexivity|]. split; [reflexivity|].
  exact (@Read_empty_passthrough env_reset fresh 0 16 0 eq_refl eq_refl eq_refl).
Defined.

(** ** Half-closes *)

Lemma flags_step (env : Env) (l : label) (s : Sys) :
  sys_inv s ->
  (readClose (rt (world s)) = true ->
   readClose (rt (world (sys_step env l s))) = true) /\
  (writeClose (rt (world s)) = true ->
   writeClose (rt (world (sys_step env l s))) = true).
Proof.
  intros Hs. destruct (sys_step_spec env l Hs) as [_ [Hq | (buf & _ & Hd)]].
  - destruct Hq; auto.
  - destruct Hd as [_ _ _ _ Hr Hw _]. rewrite Hr, Hw. auto.
Qed.

Lemma flags_run (env : Env) (ls : list label) (s : Sys) :
  sys_inv s ->
  (readClose (rt (world s)) = true ->
   readClose (rt (world (sys_run env ls s))) = true) /\
  (writeClose (rt (world s)) = true ->
   writeClose (rt (world (sys_run env ls s))) = true).
Proof.
  revert s. induction ls as [|l ls IH]; intros s Hs; [auto|].
  rewrite sys_run_cons.
  destruct (flags_step env l Hs) as [Hr Hw].
  destruct (IH (sys_step env l s)) as [Hr' Hw']; [now apply sys_step_spec|].
  auto.
Qed.

(** C8: on a stream with a connection, a second [CloseRead] returns like
    the first, leaves the retrier as the first left it, with
    [readCloseFlag] closed, and forwards the half-close to the connection
    again; likewise [CloseWrite]; and a closed flag stays closed through
    every later step. *)
Theorem half_close_idempotent (env : Env) :
  (forall w c,
     mutex (rt w) = false -> conn (rt w) = Some c ->
     exists e1 e2 w1 w2,
       run env CloseRead w = Done e1 w1 /\
       run env CloseRead w1 = Done e2 w2 /\
       readClose (rt w1) = true /\
       rt w2 = rt w1 /\
       log w1 = log w ++ [EvCloseRead c] /\
       log w2 = log w1 ++ [EvCloseRead c]) /\
  (forall w c,
     mutex (rt w) = false -> conn (rt w) = Some c ->
     exists e1 e2 w1 w2,
       run env CloseWrite w = Done e1 w1 /\
       run env CloseWrite w1 = Done e2 w2 /\
       writeClose (rt w1) = true /\
       rt w2 = rt w1 /\
       log w1 = log w ++ [EvCloseWrite c] /\
       log w2 = log w1 ++ [EvCloseWrite c]) /\
  (forall w0 ls ls',
     DialWithSplitRetry env = inl w0 ->
     let s := sys_run env ls (start w0) in
     (readClose (rt (world s)) = true ->
      readClose (rt (world (sys_run env ls' s))) = true) /\
     (writeClose (rt (world s)) = true ->
      writeClose (rt (world (sys_run env ls' s))) = true)).
Proof.
  split; [|split].
  - intros w c Hm Hc. open_world w. subst.
    destruct rdc; do 4 eexists; crunch; flat; repeat split; reflexivity.
  - intros w c Hm Hc. open_world w. subst.
    destruct wrc; do 4 eexists; crunch; flat; repeat split; reflexivity.
  - intros w0 ls ls' Hdial s. apply flags_run. now apply reach_inv.
Qed.

Lemma half_close_idempotent_witness :
  mutex (rt fresh) = false /\ conn (rt fresh) = Some 0 /\
  exists e1 e2 w1 w2,
    run env_reset CloseRead fresh = Done e1 w1 /\
    run env_reset CloseRead w1 = Done e2 w2 /\
    readClose (rt w1) = true /\
    rt w2 = rt w1 /\
    log w1 = log fresh ++ [EvCloseRead 0] /\
    log w2 = log w1 ++ [EvCloseRead 0].
Proof.
  split; [reflexivity|]. split; [reflexivity|].
  exact (proj1 (half_close_idempotent env_reset) fresh 0 eq_refl eq_refl).
Defined.

(** ** Half-closes across the retry *)

Ltac right_assoc := rewrite <- ?app_assoc; cbn [app].




(** ** A failed redial *)

Lemma Read_dial_fails (env : Env) (w : World) (buf : nat) (c : connid)
    (n : nat) (e e_dial : error) :
  mutex (rt w) = false ->
  retryComplete (rt w) = false ->
  conn (rt w) = Some c ->
  net_read env (log w) c buf = (n, Some e) ->
  net_dial env (log w ++ [EvRead c buf; EvClose c]) = Some e_dial ->
  run env (Read buf) w
  = Done (0, Some e_dial)
      {| rt := {| mutex := false; conn := None; timeout := timeout (rt w);
                  hello := []; retryComplete := true;
                  readClose := readClose (rt w);
                  writeClose := writeClose (rt w) |};
         log := log w ++ [EvRead c buf; EvClose c; EvDial] |}.
Proof.
  intros Hm Ho Hc Hread Hdial. open_world w. subst m rc c0.
  unfold Read, retry. exec. rewrite Hread. exec. rewrite andb_false_r. exec.
  right_assoc. rewrite Hdial. exec. flat. right_assoc. reflexivity.
Qed.

(** With the flag closed and a nil connection, every call only invokes
    methods on the nil connection. *)
Lemma Write_nil (env : Env) (w : World) (b : list byte) :
  retryComplete (rt w) = true -> conn (rt w) = None ->
  run env (Write b) w
  = match nil_recv env with
    | NilError e => Done (0, Some e) w
    | NilPanic => Panic w
    end.
Proof.
  intros Hc Hn. open_world w. subst.
  destruct (nil_recv env) eqn:Hnil;
    repeat (exec; unfold nil_call; rewrite ?Hnil); reflexivity.
Qed.

Lemma Write_parked_nil (env : Env) (w : World) (b : list byte) (n : nat) :
  mutex (rt w) = false -> retryComplete (rt w) = true -> conn (rt w) = None ->
  run env (Write_parked b n) w
  = match nil_recv env with
    | NilError e => Done (0, Some e) w
    | NilPanic => Panic w
    end.
Proof.
  intros Hm Hc Hn. open_world w. subst.
  destruct (nil_recv env) eqn:Hnil;
    repeat (exec; unfold nil_call; rewrite ?Hnil); reflexivity.
Qed.

Lemma CloseRead_nil (env : Env) (w : World) :
  mutex (rt w) = false -> conn (rt w) = None ->
  nil_result env Some (run env CloseRead w) (log w).
Proof.
  intros Hm Hn. open_world w. subst. unfold nil_result.
  destruct (nil_recv env) eqn:Hnil, rdc;
    repeat (exec; unfold nil_call; rewrite ?Hnil); flat; auto.
Qed.

Lemma CloseWrite_nil (env : Env) (w : World) :
  mutex (rt w) = false -> conn (rt w) = None ->
  nil_result env Some (run env CloseWrite w) (log w).
Proof.
  intros Hm Hn. open_world w. subst. unfold nil_result.
  destruct (nil_recv env) eqn:Hnil, wrc;
    repeat (exec; unfold nil_call; rewrite ?Hnil); flat; auto.
Qed.

Lemma call_nil_log (env : Env) (w : World) (o : op) :
  mutex (rt w) = false -> retryComplete (rt w) = true -> conn (rt w) = None ->
  log (outcome_world (run env (call o) w)) = log w.
Proof.
  intros Hm Hc Hn. open_world w. subst.
  destruct o, rdc, wrc; crunch; reflexivity.
Qed.

Lemma resume_nil_log (env : Env) (w : World) (p : Prog result) :
  parked_call p ->
  mutex (rt w) = false -> retryComplete (rt w) = true -> conn (rt w) = None ->
  log (outcome_world (run env p w)) = log w.
Proof.
  intros Hp Hm Hc Hn. open_world w. subst.
  destruct Hp; crunch; reflexivity.
Qed.

Lemma settle_world (out : Outcome result) (before rest : list (Prog result)) :
  world (settle out before rest) = outcome_world out.
Proof. destruct out; reflexivity. Qed.

Lemma nil_step_log (env : Env) (l : label) (s : Sys) :
  sys_inv s ->
  retryComplete (rt (world s)) = true -> conn (rt (world s)) = None ->
  log (world (sys_step env l s)) = log (world s).
Proof.
  intros (Hinv & Hlive & _) Hc Hn. unfold sys_step.
  destruct (crashed s); [reflexivity|].
  destruct (Hlive eq_refl) as [Hm Hp].
  destruct l as [o|i].
  - rewrite settle_world. now apply call_nil_log.
  - destruct (nth_error (parked s) i) as [p|] eqn:Hnth; [|reflexivity].
    rewrite settle_world. apply resume_nil_log; auto.
    rewrite Forall_forall in Hp. eauto using nth_error_In.
Qed.

Lemma nil_run_log (env : Env) (ls : list label) (s : Sys) :
  sys_inv s ->
  retryComplete (rt (world s)) = true -> conn (rt (world s)) = None ->
  log (world (sys_run env ls s)) = log (world s).
Proof.
  revert s. induction ls as [|l ls IH]; intros s Hs Hc Hn; [reflexivity|].
  rewrite sys_run_cons.
  pose proof (closed_step_quiet env l Hs Hc) as [Qc _ Qr _ _ _ _].
  rewrite IH.
  - now apply nil_step_log.
  - now apply sys_step_spec.
  - congruence.
  - congruence.
Qed.

(** The step of the system that runs a [Read] to its return. *)
Lemma step_Read_done (env : Env) (s : Sys) (buf : nat)
    (r : nat * option error) (w' : World) :
  crashed s = false ->
  run env (Read buf) (world s) = Done r w' ->
  sys_step env (Call (OpRead buf)) s
  = {| world := w'; parked := parked s ++ []; crashed := false |}.
Proof.
  intros Hcr Hrun. unfold sys_step. rewrite Hcr.
  cbn [call]. rewrite (run_bind_done env (Read buf) ret_io (world s) Hrun).
  reflexivity.
Qed.

Lemma open_not_crashed (s : Sys) :
  sys_inv s -> retryComplete (rt (world s)) = false -> crashed s = false.
Proof.
  intros (_ & _ & Hdead) Ho. destruct (crashed s); [|reflexivity].
  destruct (Hdead eq_refl). congruence.
Qed.

(** X13: when the redial of the retry fails, the [Read] that ran the retry
    returns the error of the dial, [retryCompleteFlag] is closed and the
    connection is nil; a [Write] that waits on the flag can then run, and
    its write of the remaining bytes is a call on the nil connection; and
    no later step dials again: the history keeps its two dials. *)
Theorem dial_failure_is_final (env : Env) (w0 : World) (ls : list label)
    (buf : nat) (c : connid) (n : nat) (e e_dial : error) :
  DialWithSplitRetry env = inl w0 ->
  let s := sys_run env ls (start w0) in
  retryComplete (rt (world s)) = false ->
  conn (rt (world s)) = Some c ->
  net_read env (log (world s)) c buf = (n, Some e) ->
  net_dial env (log (world s) ++ [EvRead c buf; EvClose c]) = Some e_dial ->
  exists w',
    run env (Read buf) (world s) = Done (0, Some e_dial) w' /\
    world (sys_step env (Call (OpRead buf)) s) = w' /\
    retryComplete (rt w') = true /\
    conn (rt w') = None /\
    dials (log w') = 2 /\
    (forall b k,
       run env (Write_parked b k) w'
       = match nil_recv env with
         | NilError err => Done (0, Some err) w'
         | NilPanic => Panic w'
         end) /\
    (forall ls',
       dials (log (world (sys_run env ls'
                            (sys_step env (Call (OpRead buf)) s)))) = 2).
Proof.
  intros Hdial s Ho Hc Hread Hredial.
  pose proof (reach_inv env ls Hdial) as Hs. fold s in Hs.
  pose proof (open_not_crashed Hs Ho) as Hcr.
  pose proof Hs as (Hinv & Hlive & Hdead).
  destruct (Hlive Hcr) as [Hm Hp].
  pose proof (Read_dial_fails env (world s) buf Hm Ho Hc Hread Hredial) as Hrun.
  eexists. split; [exact Hrun|].
  pose proof (step_Read_done env s buf Hcr Hrun) as Hstep.
  assert (Hs1 : sys_inv (sys_step env (Call (OpRead buf)) s))
    by (apply sys_step_spec; exact Hs).
  assert (Hd : dials (log (world s) ++ [EvRead c buf; EvClose c; EvDial]) = 2).
  { rewrite dials_app, (inv_dials Hinv).
    destruct (inv_open Hinv Ho) as [_ ->]. reflexivity. }
  rewrite Hstep in *. cbn [world] in *.
  split; [reflexivity|]. split; [reflexivity|]. split; [reflexivity|].
  split; [exact Hd|]. split.
  - intros b k. now apply Write_parked_nil.
  - intros ls'.
    destruct (closed_run_frozen env ls' Hs1 eq_refl) as (_ & _ & _ & _ & H5).
    rewrite H5. exact Hd.
Qed.

Lemma dial_failure_is_final_witness :
  let env := env_unreachable (NilError EINVAL) in
  DialWithSplitRetry env = inl fresh /\
  exists w',
    run env (Read 16)
        (world (sys_run env [Call (OpWrite payload)] (start fresh)))
    = Done (0, Some refused) w' /\
    run env (Write_parked payload 3) w' = Done (0, Some EINVAL) w' /\
    dials (log (world (sys_run env [Call (OpWrite payload); Call (OpRead 16);
                                    Resume 0; Call (OpRead 16)]
                         (start fresh)))) = 2.
Proof.
  intros env.
  assert (H : DialWithSplitRetry env = inl fresh) by reflexivity.
  split; [exact H|].
  destruct (@dial_failure_is_final env fresh [Call (OpWrite payload)] 16 0 0
              reset refused H eq_refl eq_refl eq_refl eq_refl)
    as (w' & Hrun & _ & _ & _ & _ & Hwrite & Hnever).
  exists w'. split; [exact Hrun|]. split; [exact (Hwrite payload 3)|].
  exact (Hnever [Resume 0; Call (OpRead 16)]).
Defined.

(** C5 fails in the code.  The claim has a [Write] that waits on the flag
    report a failure on its remaining bytes after a failed redial.  The
    failed dial of line 125 leaves [r.conn] nil, and nothing tests it: the
    [Write] that is resumed calls [conn.Write(b[n:])] on the nil [*net.TCPConn],
    which panics, so no failure is returned to its caller and the process
    goes down.  Here the provisional socket takes 3 of 80 bytes and reports
    an error, the [Read] fails and its redial is refused. *)
Theorem parked_write_panics_after_failed_dial :
  let env := env_unreachable NilPanic in
  exists w1 w2,
    DialWithSplitRetry env = inl fresh /\
    run env (Write payload) fresh = Parked (Write_parked payload 3) w1 /\
    run env (Read 16) w1 = Done (0, Some refused) w2 /\
    retryComplete (rt w2) = true /\
    run env (Write_parked payload 3) w2 = Panic w2 /\
    crashed (sys_run env [Call (OpWrite payload); Call (OpRead 16); Resume 0]
               (start fresh)) = true.
Proof.
  intros env. eexists. eexists.
  split; [reflexivity|]. split; [reflexivity|]. split; [reflexivity|].
  repeat split; reflexivity.
Qed.

(** ** The nil connection *)

(** X14: when the dial of the retry fails, the old connection has been
    closed before the dial and the connection of the stream is nil from then
    on; every later [Write], [CloseRead] and [CloseWrite] is a call on the
    nil connection and adds nothing to the history of either connection:
    what the call does is what the net package and the language make of a
    call on a nil [*net.TCPConn]. *)
Theorem nil_connection_after_failed_dial (env : Env) (w0 : World)
    (ls : list label) (buf : nat) (c : connid) (n : nat) (e e_dial : error) :
  DialWithSplitRetry env = inl w0 ->
  let s := sys_run env ls (start w0) in
  retryComplete (rt (world s)) = false ->
  conn (rt (world s)) = Some c ->
  net_read env (log (world s)) c buf = (n, Some e) ->
  net_dial env (log (world s) ++ [EvRead c buf; EvClose c]) = Some e_dial ->
  let s1 := sys_step env (Call (OpRead buf)) s in
  log (world s1) = log (world s) ++ [EvRead c buf; EvClose c; EvDial] /\
  forall ls',
    let s2 := sys_run env ls' s1 in
    conn (rt (world s2)) = None /\
    log (world s2) = log (world s1) /\
    (crashed s2 = false ->
     (forall b,
        nil_result env (fun err => (0, Some err))
          (run env (Write b) (world s2)) (log (world s2))) /\
     nil_result env Some (run env CloseRead (world s2)) (log (world s2)) /\
     nil_result env Some (run env CloseWrite (world s2)) (log (world s2))).
Proof.
  intros Hdial s Ho Hc Hread Hredial s1.
  pose proof (reach_inv env ls Hdial) as Hs. fold s in Hs.
  pose proof (open_not_crashed Hs Ho) as Hcr.
  pose proof Hs as (Hinv & Hlive & Hdead).
  destruct (Hlive Hcr) as [Hm Hp].
  pose proof (Read_dial_fails env (world s) buf Hm Ho Hc Hread Hredial) as Hrun.
  pose proof (step_Read_done env s buf Hcr Hrun) as Hstep.
  assert (Hs1 : sys_inv s1) by (apply sys_step_spec; exact Hs).
  assert (Hclosed : retryComplete (rt (world s1)) = true)
    by (unfold s1; rewrite Hstep; reflexivity).
  assert (Hnil : conn (rt (world s1)) = None)
    by (unfold s1; rewrite Hstep; reflexivity).
  split; [unfold s1; rewrite Hstep; reflexivity|].
  intros ls' s2.
  destruct (closed_run_frozen env ls' Hs1 Hclosed) as (Hc2 & Hn2 & _).
  fold s2 in Hc2, Hn2. rewrite Hnil in Hn2.
  split; [exact Hn2|].
  split; [now apply nil_run_log|].
  intros Hlive2.
  pose proof (sys_run_inv env ls' Hs1) as (_ & Hl2 & _). fold s2 in Hl2.
  destruct (Hl2 Hlive2) as [Hm2 _].
  split; [|split].
  - intros b. unfold nil_result. rewrite (Write_nil env (world s2) b Hc2 Hn2).
    destruct (nil_recv env); auto.
  - now apply CloseRead_nil.
  - now apply CloseWrite_nil.
Qed.

Lemma nil_connection_after_failed_dial_witness :
  let env := env_unreachable (NilError EINVAL) in
  DialWithSplitRetry env = inl fresh /\
  let s2 := sys_run env [Call (OpWrite payload)]
              (sys_step env (Call (OpRead 16))
                 (sys_run env [Call (OpRead 16)] (start fresh))) in
  conn (rt (world s2)) = None /\
  nil_result env (fun err => (0, Some err))
    (run env (Write payload) (world s2)) (log (world s2)).
Proof.
  intros env.
  assert (H : DialWithSplitRetry env = inl fresh) by reflexivity.
  split; [exact H|].
  destruct (@nil_connection_after_failed_dial env fresh [Call (OpRead 16)] 16 0 0
              reset refused H eq_refl eq_refl eq_refl eq_refl)
    as (_ & Hlater).
  destruct (Hlater [Call (OpWrite payload)]) as (Hnil & _ & Hcalls).
  split; [exact Hnil|].
  exact (proj1 (Hcalls eq_refl) payload).
Defined.

(** C10 fails in the code.  The claim has every [Write], [CloseRead] and
    [CloseWrite] after a failed redial return an error.  The failed dial of
    line 125 leaves [r.conn] nil and lines 154, 210 and 243 call through it
    without a test: the call on the nil [*net.TCPConn] panics, so the three
    methods panic instead of returning an error.  Here two [Read]s have
    run, the first passed an empty read through and the second failed and
    had its redial refused. *)
Theorem nil_connection_call_panics :
  let env := env_unreachable NilPanic in
  let s := sys_run env [Call (OpRead 16); Call (OpRead 16)] (start fresh) in
  DialWithSplitRetry env = inl fresh /\
  crashed s = false /\
  conn (rt (world s)) = None /\
  dials (log (world s)) = 2 /\
  run env (Write payload) (world s) = Panic (world s) /\
  (exists w', run env CloseRead (world s) = Panic w') /\
  (exists w', run env CloseWrite (world s) = Panic w').
Proof.
  intros env s. repeat split; try reflexivity; eexists; reflexivity.
Qed.

(** ** The write that waits for the retry *)

(** The ordinary course of C4: a write to the provisional socket that
    reports an error parks the call with the count so far; the parked call
    stays parked while the flag is open; once the flag is closed and a
    connection is there, it writes the rest and returns the sum of the
    counts with the error of the second write. *)
Lemma Write_resumes_on_final_socket (env : Env) (b : list byte) :
  (forall w c n e,
     mutex (rt w) = false -> retryComplete (rt w) = false ->
     conn (rt w) = Some c ->
     net_write env (log w) c b = (n, Some e) ->
     exists w', run env (Write b) w = Parked (Write_parked b (Nat.min n (length b))) w') /\
  (forall w k,
     retryComplete (rt w) = false ->
     run env (Write_parked b k) w = Parked (Write_parked b k) w) /\
  (forall w k c m e,
     mutex (rt w) = false -> retryComplete (rt w) = true ->
     conn (rt w) = Some c ->
     net_write env (log w) c (skipn k b) = (m, e) ->
     run env (Write_parked b k) w
     = Done (k + Nat.min m (length (skipn k b)), e)
         {| rt := rt w; log := log w ++ [EvWrite c (skipn k b)] |}).
Proof.
  split; [|split].
  - intros w c n e Hm Ho Hc Hw. open_world w. subst.
    unfold Write, Write_provisional. exec. rewrite Hw. exec.
    eexists. reflexivity.
  - intros w k Ho. open_world w. subst. reflexivity.
  - intros w k c m e Hm Hcl Hc Hw. open_world w. subst.
    unfold Write_parked, Write_after_error. exec. rewrite Hw. exec.
    reflexivity.
Qed.

(** C4 fails after a failed redial.  The provisional socket takes 3 of the
    80 bytes and reports an error, so the [Write] parks with the count 3;
    the [Read] runs the retry and its dial fails; the resumed [Write] finds
    a nil connection: where the net package answers with an error, the
    local [conn] is nil as well, the call writes all of [b] once more to
    the nil connection and returns that result, the count 0 in place of
    3 + 0; where the nil call panics, the [Write] panics. *)
Theorem Write_after_failed_dial_loses_count :
  let env := env_unreachable (NilError EINVAL) in
  exists w1 w2,
    run env (Write payload) fresh = Parked (Write_parked payload 3) w1 /\
    run env (Read 16) w1 = Done (0, Some refused) w2 /\
    conn (rt w2) = None /\
    run env (Write_parked payload 3) w2 = Done (0, Some EINVAL) w2 /\
    run (env_unreachable NilPanic) (Write_parked payload 3) w2 = Panic w2.
Proof.
  intros env. eexists. eexists.
  split; [reflexivity|]. split; [reflexivity|]. repeat split; reflexivity.
Qed.

(** * The two goroutines, command by command *)

(** ** The methods follow the discipline of the mutex *)

Lemma follows_bind (phase : Type) (out : phase)
      (allowed : phase -> forall X : Type, action X -> Prop)
      (next : phase -> forall X : Type, action X -> X -> phase)
      (A : Type) (p : Prog A) :
  forall (B : Type) (f : A -> Prog B) (ph : phase),
    follows out allowed next ph p ->
    (forall a, follows out allowed next out (f a)) ->
    follows out allowed next ph (bind p f).
Proof.
  induction p as [A a|A X a k IH|A S B0 body IHb s k IHk];
    intros B f ph Hp Hf; cbn in *.
  - subst ph. apply Hf.
  - destruct Hp as [Ha Hk]. split; [exact Ha|]. intros x. apply IH; auto.
  - destruct Hp as (-> & Hb & Hk). repeat split; auto.
Qed.

Ltac discipline :=
  repeat
    (cbn [follows bind perform call ret_io ret_copy ret_close continue
          closed readClosed writeClosed retryCompleted
          wallowed wnext rallowed rnext negb andb is_nil fst snd];
     match goal with
     | |- True => exact I
     | |- _ /\ _ => split
     | |- forall _, _ => intro
     | |- ?x = ?x => reflexivity
     | |- _ <> _ => discriminate
     | |- _ \/ _ => first [left; reflexivity | right; reflexivity]
     | |- exists _, _ => do 3 eexists; split; reflexivity
     | |- context [match ?x with _ => _ end] => destruct x
     | |- context [if ?x then _ else _] => destruct x
     end).

Lemma Read_follows (buf : nat) : reader_follows ROut (call (OpRead buf)).
Proof.
  unfold reader_follows, call, Read, retry, splitHello. discipline.
Qed.

Lemma CloseRead_follows : reader_follows ROut (call OpCloseRead).
Proof. unfold reader_follows, call, CloseRead. discipline. Qed.

Lemma Write_follows (b : list byte) : writer_follows WOut (Write b).
Proof.
  unfold writer_follows, Write, Write_provisional, Write_after_error, Write_final.
  discipline.
Qed.

Lemma CloseWrite_follows : writer_follows WOut (call OpCloseWrite).
Proof. unfold writer_follows, call, CloseWrite. discipline. Qed.

Lemma ReadFrom_follows : writer_follows WOut (call OpReadFrom).
Proof.
  unfold writer_follows, call, ReadFrom. cbn [bind follows].
  split; [reflexivity|]. split.
  - intros bytes. unfold ReadFrom_round.
    cbn [bind perform retryCompleted closed follows wallowed wnext].
    split; [exact I|]. intros [|]; cbn [negb].
    + reflexivity.
    + cbn [bind perform follows wallowed wnext]. split; [exact I|].
      intros [data [e|]]; cbn [negb is_nil]; [reflexivity|].
      apply follows_bind; [apply Write_follows|].
      intros [n [e|]]; reflexivity.
  - intros [[bytes e]|bytes]; unfold ReadFrom_rest; discipline.
Qed.

Lemma call_follows (o : op) :
  (reader_role o = true -> reader_follows ROut (call o)) /\
  (writer_role o = true -> writer_follows WOut (call o)).
Proof.
  destruct o; split; intros H; try discriminate H.
  - apply Read_follows.
  - unfold call. apply follows_bind; [apply Write_follows | intros; reflexivity].
  - apply ReadFrom_follows.
  - apply CloseRead_follows.
  - apply CloseWrite_follows.
Qed.

(** ** What one command does to the shared state *)

Ltac effect H :=
  cbn in H; unfold nil_call in H;
  repeat match type of H with
         | context [match ?c with _ => _ end] => destruct c eqn:?
         | context [if ?c then _ else _] => destruct c eqn:?
         end;
  try discriminate H; inversion H; subst; clear H.

Lemma same_shared_refl (w : World) : same_shared w w.
Proof. repeat split. exists []. now rewrite app_nil_r. Qed.

Lemma same_shared_emit (e : event) (w : World) : same_shared w (emit e w).
Proof. repeat split. exists [e]. reflexivity. Qed.

(** Every command but the five that the discipline restricts leaves the
    mutex, the connection, the hello and the flag as they were. *)
Lemma free_effect (env : Env) (X : Type) (a : action X) (x : X) (w w' : World) :
  do_action env a w = Performed x w' ->
  match a with
  | Lock | Unlock | SetConn _ | SetHello _ | Close retryCompleteFlag => True
  | _ => same_shared w w'
  end.
Proof.
  intros H. destruct a; try exact I;
    try (effect H; first [apply same_shared_refl | apply same_shared_emit]).
  destruct f; [exact I| |]; effect H; repeat split;
    exists []; cbn; now rewrite app_nil_r.
Qed.

Lemma wrote_stable (env : Env) (w w' : World) (b : list byte) (n : nat) :
  same_shared w w' -> wrote env w b n -> wrote env w' b n.
Proof.
  intros (_ & Hc & _ & _ & new & Hl) (pre & c & post & H1 & H2 & H3).
  exists pre, c, (post ++ new). rewrite Hc, Hl, H2, <- app_assoc. auto.
Qed.

Lemma knows_stable (env : Env) (w w' : World) (wp : wphase) :
  same_shared w w' -> writer_knows env wp w -> writer_knows env wp w'.
Proof.
  intros Hs Hk. pose proof Hs as (_ & Hc & Hh & Hr & _).
  destruct wp; cbn in *; rewrite ?Hc, ?Hh, ?Hr; auto.
  - destruct Hk. eauto using wrote_stable.
  - destruct Hk as (? & ? & ?). eauto using wrote_stable.
Qed.

Lemma world_inv_stable (env : Env) (w w' : World) (rp : rphase) (wp : wphase) :
  same_shared w w' -> world_inv env w rp wp -> world_inv env w' rp wp.
Proof.
  intros Hs [H1 H2 H3 H4 H5 H6]. pose proof Hs as (Hm & Hc & Hh & Hr & _).
  constructor; rewrite ?Hm, ?Hc, ?Hh, ?Hr; auto.
  eauto using knows_stable.
Qed.

Lemma reader_command (env : Env) (X : Type) (a : action X) (x : X)
      (w w' : World) (rp : rphase) (wp : wphase) :
  world_inv env w rp wp -> rallowed rp a ->
  do_action env a w = Performed x w' ->
  world_inv env w' (rnext rp a x) wp /\ hello_step env ReaderSteps w w'.
Proof.
  intros Hinv Hal Hdo. pose proof (free_effect _ _ _ Hdo) as Hfree.
  destruct a; try destruct f; cbn [rnext];
    try solve [split; [eapply world_inv_stable; eauto | left; apply Hfree]].
  all: destruct Hinv as [H1 H2 H3 H4 H5 H6]; cbn in Hal.
  all: destruct rp; try (destruct Hal; discriminate); try discriminate.
  all: destruct wp; try (destruct H2; discriminate); try discriminate.
  all: try match type of Hal with _ /\ _ => destruct Hal as [_ ->] end.
  all: clear H2; effect Hdo.
  all: cbn in *.
  all: split; [constructor; cbn; auto; try discriminate; try congruence|].
  all: try solve [exfalso; congruence].
  all: try solve [intros Hc Hx; apply H6; [exact Hc | discriminate]].
  all: try solve [intros Hn; destruct (H4 Hn) as [Hc|Hc];
                  [left; exact Hc | discriminate Hc]].
  all: try solve [left; reflexivity].
  all: try solve [right; left; repeat split; auto].
Qed.

Lemma writer_command (env : Env) (X : Type) (a : action X) (x : X)
      (w w' : World) (rp : rphase) (wp : wphase) :
  world_inv env w rp wp -> wallowed wp a ->
  do_action env a w = Performed x w' ->
  world_inv env w' rp (wnext wp a x) /\ hello_step env WriterSteps w w'.
Proof.
  intros Hinv Hal Hdo. pose proof (free_effect _ _ _ Hdo) as Hfree.
  destruct a; try destruct f; destruct wp; cbn [wnext];
    try solve [split; [eapply world_inv_stable; eauto | left; apply Hfree]].
  all: destruct Hinv as [H1 H2 H3 H4 H5 H6]; cbn in Hal.
  all: try contradiction; try (exfalso; apply Hal; reflexivity).
  all: try discriminate Hal.
  all: try (destruct Hal as (b0 & n0 & h0 & Hph & Hh'); try discriminate Hph;
            injection Hph as -> -> ->).
  all: try (destruct H2 as [->|H2]; [|discriminate H2]).
  all: effect Hdo; cbn in *.
  all: repeat match goal with H : _ /\ _ |- _ => destruct H end.
  all: try (destruct rp; try congruence).
  all: try (split; [constructor; cbn; auto; try discriminate;
                    try (intros; congruence)|]).
  all: try solve [left; reflexivity].
  all: try solve [repeat split; auto].
  - destruct Hal as (b0 & n0 & h1 & [= <- <- <-] & ->).
    destruct H0 as (pre & c & post & Hc & Hl & ->).
    right; right. split; [reflexivity|]. split; [assumption|].
    split; [assumption|].
    exists pre, c, b, post. cbn. rewrite H2, firstn_min_length. auto.
  - destruct (retryComplete (rt w')) eqn:Hr; cbn; auto.
  - destruct (retryComplete (rt w')) eqn:Hr; cbn; auto.
  - split; [assumption|]. exists (log w), c1, []. cbn.
    rewrite Heqp. cbn. repeat split; congruence.
  - destruct H4 as [Hc|Hc]; congruence.
Qed.

(** Only the reader closes [retryCompleteFlag], and it is then in the phase
    in which it clears the hello. *)
Lemma reader_flag (env : Env) (X : Type) (a : action X) (x : X)
      (w w' : World) (rp : rphase) :
  do_action env a w = Performed x w' ->
  retryComplete (rt w') = retryComplete (rt w) \/ rnext rp a x = RClosed.
Proof.
  intros Hdo. destruct a; try destruct f; effect Hdo; cbn;
    first [right; reflexivity | left; congruence].
Qed.

Lemma writer_flag (env : Env) (X : Type) (a : action X) (x : X)
      (w w' : World) (wp : wphase) :
  wallowed wp a ->
  do_action env a w = Performed x w' ->
  retryComplete (rt w') = retryComplete (rt w).
Proof.
  intros Hal Hdo. destruct a; try destruct f; cbn in Hal;
    try contradiction; try (exfalso; apply Hal; reflexivity);
    effect Hdo; cbn; congruence.
Qed.

Lemma flag_stays_closed (env : Env) (X : Type) (a : action X) (x : X)
      (w w' : World) :
  do_action env a w = Performed x w' ->
  retryComplete (rt w) = true -> retryComplete (rt w') = true.
Proof.
  intros Hdo Hc. destruct a; try destruct f; effect Hdo; cbn; congruence.
Qed.


Lemma follows_round (phase : Type) (out : phase)
      (allowed : phase -> forall X : Type, action X -> Prop)
      (next : phase -> forall X : Type, action X -> X -> phase)
      (A S B : Type) (body : S -> Prog (S + B)) (s : S) (k : B -> Prog A)
      (ph : phase) :
  follows out allowed next ph (Iter body s k) ->
  follows out allowed next ph (bind (body s) (continue body k)).
Proof.
  intros (-> & Hb & Hk). apply follows_bind; [apply Hb|].
  intros [s'|b]; cbn; auto.
Qed.

(** ** The invariant of the two goroutines *)

Lemma duo_step_inv (env : Env) (m : move) (s : Duo) (rp : rphase) (wp : wphase) :
  duo_inv env s rp wp ->
  (exists rp' wp',
     duo_inv env (duo_step env m s) rp' wp' /\
     (retryComplete (rt (shared (duo_step env m s)))
      = retryComplete (rt (shared s)) \/
      (m = ReaderSteps /\ rp' = RClosed))) /\
  hello_step env m (shared s) (shared (duo_step env m s)).
Proof.
  intros (Hr & Hw & Hinv).
  assert (Hsame : (exists rp' wp',
                     duo_inv env s rp' wp' /\
                     (retryComplete (rt (shared s)) = retryComplete (rt (shared s)) \/
                      (m = ReaderSteps /\ rp' = RClosed))) /\
                  hello_step env m (shared s) (shared s)).
  { split; [|left; reflexivity].
    exists rp, wp. split; [exact (conj Hr (conj Hw Hinv)) | left; reflexivity]. }
  unfold duo_step. destruct (panicked s) eqn:Hp; [exact Hsame|].
  destruct m as [o|o| |].
  - destruct (reader s) eqn:Hrd; [exact Hsame|].
    destruct (reader_role o) eqn:Hrole; [|exact Hsame].
    split; [|left; reflexivity]. exists rp, wp. cbn in Hr. subst rp.
    split; [|left; reflexivity].
    exact (conj (proj1 (call_follows o) Hrole) (conj Hw Hinv)).
  - destruct (writer s) eqn:Hwr; [exact Hsame|].
    destruct (writer_role o) eqn:Hrole; [|exact Hsame].
    split; [|left; reflexivity]. exists rp, wp. cbn in Hw. subst wp.
    split; [|left; reflexivity].
    exact (conj Hr (conj (proj2 (call_follows o) Hrole) Hinv)).
  - destruct (reader s) as [p|] eqn:Hrd; [|exact Hsame]. cbn in Hr.
    destruct p as [r|X a k|S B body s0 k]; cbn [advance].
    + cbn in Hr. subst rp. split; [|left; reflexivity].
      exists ROut, wp. split; [|left; reflexivity].
      exact (conj eq_refl (conj Hw Hinv)).
    + destruct Hr as [Hal Hk].
      destruct (do_action env a (shared s)) as [x w'| |] eqn:Hdo.
      * destruct (@reader_command env X a x _ _ rp wp Hinv Hal Hdo)
          as [Hinv' Hstep].
        split; [|exact Hstep]. exists (rnext rp a x), wp. split.
        -- exact (conj (Hk x) (conj Hw Hinv')).
        -- destruct (@reader_flag env X a x _ _ rp Hdo) as [Hf|Hf]; auto.
      * exact Hsame.
      * split; [|left; reflexivity]. exists rp, wp.
        split; [|left; reflexivity].
        exact (conj (conj Hal Hk) (conj Hw Hinv)).
    + split; [|left; reflexivity]. exists rp, wp.
      split; [|left; reflexivity].
      exact (conj (follows_round Hr) (conj Hw Hinv)).
  - destruct (writer s) as [p|] eqn:Hwr; [|exact Hsame]. cbn in Hw.
    destruct p as [r|X a k|S B body s0 k]; cbn [advance].
    + cbn in Hw. subst wp. split; [|left; reflexivity].
      exists rp, WOut. split; [|left; reflexivity].
      exact (conj Hr (conj eq_refl Hinv)).
    + destruct Hw as [Hal Hk].
      destruct (do_action env a (shared s)) as [x w'| |] eqn:Hdo.
      * destruct (@writer_command env X a x _ _ rp wp Hinv Hal Hdo)
          as [Hinv' Hstep].
        split; [|exact Hstep]. exists rp, (wnext wp a x). split.
        -- exact (conj Hr (conj (Hk x) Hinv')).
        -- left. exact (@writer_flag env X a x _ _ wp Hal Hdo).
      * exact Hsame.
      * split; [|left; reflexivity]. exists rp, wp.
        split; [|left; reflexivity].
        exact (conj Hr (conj (conj Hal Hk) Hinv)).
    + split; [|left; reflexivity]. exists rp, wp.
      split; [|left; reflexivity].
      exact (conj Hr (conj (follows_round Hw) Hinv)).
Qed.

Lemma duo_run_cons (env : Env) (m : move) (ms : list move) (s : Duo) :
  duo_run env (m :: ms) s = duo_run env ms (duo_step env m s).
Proof. reflexivity. Qed.

Lemma duo_run_inv (env : Env) (ms : list move) :
  forall s rp wp,
    duo_inv env s rp wp ->
    exists rp' wp', duo_inv env (duo_run env ms s) rp' wp'.
Proof.
  induction ms as [|m ms IH]; intros s rp wp Hs; [eauto|].
  rewrite duo_run_cons.
  destruct (duo_step_inv m Hs) as [(rp' & wp' & Hs' & _) _]. eauto.
Qed.

Lemma duo_start_inv (env : Env) (w0 : World) :
  DialWithSplitRetry env = inl w0 -> duo_inv env (duo_start w0) ROut WOut.
Proof.
  unfold DialWithSplitRetry. destruct (net_dial env []); [discriminate|].
  intros [= <-]. split; [reflexivity|]. split; [reflexivity|].
  constructor; cbn; auto; discriminate.
Qed.

Lemma duo_reach_inv (env : Env) (w0 : World) (ms : list move) :
  DialWithSplitRetry env = inl w0 ->
  exists rp wp, duo_inv env (duo_run env ms (duo_start w0)) rp wp.
Proof. intros H. eapply duo_run_inv, duo_start_inv, H. Qed.


(** ** The life of the replay buffer *)




(** ** The fields that the mutex guards *)

Lemma duo_step_cases (env : Env) (m : move) (s : Duo) (rp : rphase) (wp : wphase) :
  duo_inv env s rp wp ->
  shared (duo_step env m s) = shared s \/
  (m = ReaderSteps /\
   exists (X : Type) (a : action X) (x : X),
     rallowed rp a /\
     do_action env a (shared s) = Performed x (shared (duo_step env m s))) \/
  (m = WriterSteps /\
   exists (X : Type) (a : action X) (x : X),
     wallowed wp a /\
     do_action env a (shared s) = Performed x (shared (duo_step env m s))).
Proof.
  intros (Hr & Hw & _). unfold duo_step.
  destruct (panicked s); [left; reflexivity|].
  destruct m as [o|o| |].
  - destruct (reader s); [left; reflexivity|].
    destruct (reader_role o); left; reflexivity.
  - destruct (writer s); [left; reflexivity|].
    destruct (writer_role o); left; reflexivity.
  - destruct (reader s) as [p|]; [|left; reflexivity].
    destruct p as [r|X a k|S B body s0 k]; cbn [advance];
      try (left; reflexivity).
    destruct Hr as [Hal _].
    destruct (do_action env a (shared s)) as [x w'| |] eqn:Hdo;
      try (left; reflexivity).
    right; left. split; [reflexivity|]. exists X, a, x. auto.
  - destruct (writer s) as [p|]; [|left; reflexivity].
    destruct p as [r|X a k|S B body s0 k]; cbn [advance];
      try (left; reflexivity).
    destruct Hw as [Hal _].
    destruct (do_action env a (shared s)) as [x w'| |] eqn:Hdo;
      try (left; reflexivity).
    right; right. split; [reflexivity|]. exists X, a, x. auto.
Qed.

(** A command of the reader that changes the connection, the hello or the
    flag is run with the mutex held. *)
Lemma reader_guard (env : Env) (X : Type) (a : action X) (x : X)
      (w w' : World) (rp : rphase) (wp : wphase) :
  world_inv env w rp wp -> rallowed rp a ->
  do_action env a w = Performed x w' ->
  (conn (rt w') = conn (rt w) /\
   hello (rt w') = hello (rt w) /\
   retryComplete (rt w') = retryComplete (rt w)) \/
  mutex (rt w) = true.
Proof.
  intros Hinv Hal Hdo. pose proof (free_effect _ _ _ Hdo) as Hfree.
  destruct a; try destruct f;
    try solve [left; destruct Hfree as (_ & Hc & Hh & Hr & _); auto].
  all: try solve [left; effect Hdo; cbn; auto].
  all: right; rewrite (wi_mutex Hinv); cbn in Hal.
  all: destruct rp; try (destruct Hal as [Hal|Hal]; discriminate Hal);
    try (destruct Hal as [Hal _]; discriminate Hal); reflexivity.
Qed.

(** The writer changes neither the connection nor the flag, and changes the
    hello with the mutex held. *)
Lemma writer_guard (env : Env) (X : Type) (a : action X) (x : X)
      (w w' : World) (rp : rphase) (wp : wphase) :
  world_inv env w rp wp -> wallowed wp a ->
  do_action env a w = Performed x w' ->
  conn (rt w') = conn (rt w) /\
  retryComplete (rt w') = retryComplete (rt w) /\
  (hello (rt w') = hello (rt w) \/ mutex (rt w) = true).
Proof.
  intros Hinv Hal Hdo. pose proof (free_effect _ _ _ Hdo) as Hfree.
  destruct a; try destruct f;
    try solve [destruct Hfree as (_ & Hc & Hh & Hr & _); auto].
  all: cbn in Hal; try contradiction; try (exfalso; apply Hal; reflexivity).
  all: try solve [effect Hdo; cbn; auto].
  destruct Hal as (b & n & h0 & -> & _).
  pose proof (wi_mutex Hinv) as Hm. effect Hdo.
  split; [reflexivity|]. split; [reflexivity|].
  right. rewrite Hm. destruct rp; reflexivity.
Qed.

(** X16: for the two goroutines of a stream made by [DialWithSplitRetry],
    preempted between any two commands, the fields that the mutex guards
    are modified only while it is held: a step that changes [r.conn] or
    closes [retryCompleteFlag] is a step of the reader made with the mutex
    held, and a step that changes the hello is made with the mutex held.
    The writer never changes [r.conn]. *)
Theorem mutex_guards_fields (env : Env) (w0 : World) (ms : list move) (m : move) :
  DialWithSplitRetry env = inl w0 ->
  let s := duo_run env ms (duo_start w0) in
  let s' := duo_step env m s in
  (conn (rt (shared s')) <> conn (rt (shared s)) ->
   m = ReaderSteps /\ mutex (rt (shared s)) = true) /\
  (retryComplete (rt (shared s')) <> retryComplete (rt (shared s)) ->
   m = ReaderSteps /\ mutex (rt (shared s)) = true) /\
  (hello (rt (shared s')) <> hello (rt (shared s)) ->
   mutex (rt (shared s)) = true).
Proof.
  intros Hdial s s'.
  destruct (duo_reach_inv env ms Hdial) as (rp & wp & Hs). fold s in Hs.
  destruct (duo_step_cases m Hs)
    as [Hsame | [(-> & X & a & x & Hal & Hdo) | (-> & X & a & x & Hal & Hdo)]];
    fold s' in Hsame || fold s' in Hdo.
  - rewrite Hsame. repeat split; congruence.
  - destruct (@reader_guard env X a x _ _ rp wp (proj2 (proj2 Hs)) Hal Hdo) as [(Hc & Hh & Hr)|Hm].
    + repeat split; congruence.
    + repeat split; auto.
  - destruct (@writer_guard env X a x _ _ rp wp (proj2 (proj2 Hs)) Hal Hdo) as (Hc & Hr & [Hh|Hm]).
    + repeat split; congruence.
    + repeat split; try congruence; auto.
Qed.

Lemma mutex_guards_fields_witness :
  let ms := WriterCalls (OpWrite payload) :: repeat WriterSteps 12
            ++ ReaderCalls (OpRead 16) :: repeat ReaderSteps 4 in
  let s := duo_run env_five ms (duo_start fresh) in
  let s' := duo_step env_five ReaderSteps s in
  DialWithSplitRetry env_five = inl fresh /\
  retryComplete (rt (shared s')) <> retryComplete (rt (shared s)) /\
  mutex (rt (shared s)) = true.
Proof.
  intros ms s s'.
  assert (H : DialWithSplitRetry env_five = inl fresh) by reflexivity.
  assert (Hne : retryComplete (rt (shared s')) <> retryComplete (rt (shared s)))
    by (cbv; discriminate).
  split; [exact H|]. split; [exact Hne|].
  exact (proj2 (proj1 (proj2 (mutex_guards_fields env_five ms ReaderSteps H)) Hne)).
Defined.

(** * Further properties of the code *)

(** ** The estimate at its bounds *)

(** X1: for a round trip that is not negative and short enough for the
    estimate to fit a Duration, [timeout] is at least 1200 milliseconds, and
    a longer round trip never gives a shorter timeout. *)
Theorem timeout_at_least_1200ms (before rtt rtt' : Z) :
  (0 <= rtt <= rtt')%Z ->
  (1200 * GoTime.Millisecond + 2 * rtt' <= GoTime.max_int64)%Z ->
  (1200 * GoTime.Millisecond <= Estimator.timeout before (before + rtt)%Z)%Z /\
  (Estimator.timeout before (before + rtt)%Z
   <= Estimator.timeout before (before + rtt')%Z)%Z.
Proof.
  intros Hr Hfit.
  assert (Hval : forall r : Z, (0 <= r <= rtt')%Z ->
            Estimator.timeout before (before + r)%Z
            = (1200 * GoTime.Millisecond + 2 * r)%Z).
  { intros r Hrr. unfold Estimator.timeout. rewrite wrap64_add_r.
    unfold GoTime.Sub, GoTime.min_int64, GoTime.max_int64, GoTime.Millisecond in *.
    replace (before + r - before)%Z with r by lia.
    destruct (Z.ltb_spec r (- 2 ^ 63)); [lia|].
    destruct (Z.ltb_spec (2 ^ 63 - 1) r); [lia|].
    apply wrap64_small. unfold GoTime.min_int64, GoTime.max_int64. lia. }
  rewrite (Hval rtt), (Hval rtt') by lia. lia.
Qed.

Lemma timeout_at_least_1200ms_witness :
  (0 <= 50000000 <= 90000000)%Z /\
  (1200 * GoTime.Millisecond <= Estimator.timeout 7%Z (7 + 50000000)%Z)%Z.
Proof.
  assert (H1 : (0 <= 50000000 <= 90000000)%Z) by lia.
  assert (H2 : (1200 * GoTime.Millisecond + 2 * 90000000 <= GoTime.max_int64)%Z)
    by (vm_compute; discriminate).
  split; [exact H1|].
  exact (proj1 (timeout_at_least_1200ms 7%Z H1 H2)).
Defined.

(** X2: beyond the range of a Duration the estimate is no longer
    1200ms + 2*rtt: [Sub] saturates and the doubling wraps around, so for
    timestamps at least 2^63 - 1 nanoseconds apart [timeout] is 1200ms less
    two nanoseconds, and for timestamps at least 2^63 nanoseconds apart the
    other way round it is 1200ms. *)
Theorem timeout_saturates (before after : GoTime.Time) :
  ((GoTime.max_int64 <= after - before ->
    Estimator.timeout before after = 1200 * GoTime.Millisecond - 2) /\
   (after - before <= GoTime.min_int64 ->
    Estimator.timeout before after = 1200 * GoTime.Millisecond))%Z.
Proof.
  unfold Estimator.timeout, GoTime.Sub.
  split; intros H.
  - destruct (Z.ltb_spec (after - before) GoTime.min_int64) as [Hlt|Hge].
    + unfold GoTime.min_int64, GoTime.max_int64 in *. lia.
    + destruct (Z.ltb_spec GoTime.max_int64 (after - before)) as [Hgt|Hle].
      * reflexivity.
      * replace (after - before)%Z with GoTime.max_int64 by lia. reflexivity.
  - destruct (Z.ltb_spec (after - before) GoTime.min_int64) as [Hlt|Hge].
    + reflexivity.
    + replace (after - before)%Z with GoTime.min_int64 by lia. reflexivity.
Qed.

Lemma timeout_saturates_witness :
  (GoTime.max_int64 <= 2 ^ 63 - 0)%Z /\
  Estimator.timeout 0%Z (2 ^ 63)%Z = (1200 * GoTime.Millisecond - 2)%Z.
Proof.
  assert (H : (GoTime.max_int64 <= 2 ^ 63 - 0)%Z) by (vm_compute; discriminate).
  split; [exact H|].
  exact (proj1 (timeout_saturates 0%Z (2 ^ 63)%Z) H).
Defined.

(** ** The shape of the split *)

(** X3: whatever the draw, the first slice of [splitHello] is never longer
    than the second; a payload of two bytes or more gives two slices that
    are not empty; a payload of one byte gives an empty first slice; and a
    payload of at most 65 bytes is always cut at half its length. *)
Theorem splitHello_segments (env : Env) (w : World) (hello : list byte) :
  exists first second,
    run env (splitHello hello) w = Done (first, second) w /\
    length first <= length second /\
    (2 <= length hello -> 1 <= length first /\ 1 <= length second) /\
    (length hello = 1 -> first = [] /\ second = hello) /\
    (length hello <= 65 -> length first = length hello / 2).
Proof.
  unfold splitHello. destruct (Nat.eqb_spec (length hello) 0) as [Hz|Hnz].
  - exists hello, hello. cbn. repeat split; try lia.
    rewrite Hz. reflexivity.
  - pose (r := rand_intn env (log w) (MAX_SPLIT + 1 - MIN_SPLIT)
               mod (MAX_SPLIT + 1 - MIN_SPLIT)).
    exists (fst (split_at (MIN_SPLIT + r) hello)),
           (snd (split_at (MIN_SPLIT + r) hello)).
    split; [reflexivity|].
    unfold split_at, MIN_SPLIT, MAX_SPLIT. cbn [fst snd].
    assert (Hhalf : length hello / 2 <= length hello)
      by (apply Nat.Div0.div_le_upper_bound; lia).
    assert (Htwice : 2 * (length hello / 2) <= length hello)
      by (apply Nat.Div0.mul_div_le).
    assert (Hpos : 2 <= length hello -> 1 <= length hello / 2)
      by (intros; apply Nat.div_le_lower_bound; lia).
    assert (Hsmall : length hello <= 65 -> length hello / 2 <= 32).
    { intros. apply Nat.lt_succ_r. apply Nat.Div0.div_lt_upper_bound. lia. }
    assert (Hcut : (if length hello / 2 <? 32 + r then length hello / 2 else 32 + r)
                   <= length hello / 2)
      by (destruct (Nat.ltb_spec (length hello / 2) (32 + r)); lia).
    assert (Hone : 2 <= length hello ->
              1 <= (if length hello / 2 <? 32 + r then length hello / 2 else 32 + r))
      by (destruct (Nat.ltb_spec (length hello / 2) (32 + r)); lia).
    assert (Hexact : length hello <= 65 ->
              (if length hello / 2 <? 32 + r then length hello / 2 else 32 + r)
              = length hello / 2)
      by (destruct (Nat.ltb_spec (length hello / 2) (32 + r)); lia).
    rewrite length_firstn, length_skipn.
    split; [lia|]. split; [lia|]. split; [|lia].
    intros H1. rewrite Hexact by lia. rewrite H1. split; reflexivity.
Qed.

(** ** Write, before and after the decision *)

(** X4: once [retryCompleteFlag] is closed, [Write] is the write of the
    connection and nothing else: it returns that call's count and error,
    and it neither takes the mutex, nor touches the hello, nor sets a
    deadline. *)
Theorem Write_fast_path (env : Env) (w : World) (b : list byte) (c : connid) :
  retryComplete (rt w) = true ->
  conn (rt w) = Some c ->
  run env (Write b) w
  = Done (Nat.min (fst (net_write env (log w) c b)) (length b),
          snd (net_write env (log w) c b))
      {| rt := rt w; log := log w ++ [EvWrite c b] |}.
Proof.
  intros Hc Hn. open_world w. subst.
  unfold Write, Write_provisional. exec.
  destruct (net_write env l c b) as [n e]. reflexivity.
Qed.

Lemma Write_fast_path_witness :
  let w := world (sys_run env_reset [Call (OpRead 16); Call (OpRead 16)]
                    (start fresh)) in
  retryComplete (rt w) = true /\ conn (rt w) = Some 1 /\
  run env_reset (Write payload) w
  = Done (80, None) {| rt := rt w; log := log w ++ [EvWrite 1 payload] |}.
Proof.
  intros w. split; [reflexivity|]. split; [reflexivity|].
  exact (@Write_fast_path env_reset w payload 1 eq_refl eq_refl).
Defined.



(** ** Read, before and after the decision *)

(** X6: once [retryCompleteFlag] is closed, [Read] is the read of the
    connection: it returns that call's count and error, also when the read
    fails, and leaves the retrier as it was. *)
Theorem Read_after_decision (env : Env) (w : World) (buf : nat) (c : connid) :
  retryComplete (rt w) = true ->
  conn (rt w) = Some c ->
  run env (Read buf) w
  = Done (Nat.min (fst (net_read env (log w) c buf)) buf,
          snd (net_read env (log w) c buf))
      {| rt := rt w; log := log w ++ [EvRead c buf] |}.
Proof.
  intros Hc Hn. open_world w. subst. unfold Read. exec.
  destruct (net_read env l c buf) as [n [e|]]; exec.
  - rewrite andb_false_r. reflexivity.
  - rewrite andb_true_r. destruct (Nat.min n buf =? 0) eqn:Hz; [|reflexivity].
    apply Nat.eqb_eq in Hz. rewrite Hz. reflexivity.
Qed.

Lemma Read_after_decision_witness :
  let w := world (sys_run env_reset [Call (OpRead 16); Call (OpRead 16)]
                    (start fresh)) in
  retryComplete (rt w) = true /\ conn (rt w) = Some 1 /\
  run env_reset (Read 16) w
  = Done (5, None) {| rt := rt w; log := log w ++ [EvRead 1 16] |}.
Proof.
  intros w. split; [reflexivity|]. split; [reflexivity|].
  exact (@Read_after_decision env_reset w 16 1 eq_refl eq_refl).
Defined.





(** ** ReadFrom *)

Lemma wrap64_idem (z : Z) : GoTime.wrap64 (0 + GoTime.wrap64 z) = GoTime.wrap64 z.
Proof. rewrite wrap64_add_r. reflexivity. Qed.

(** X9: once [retryCompleteFlag] is closed, [ReadFrom] reads nothing from
    the reader itself: it hands the reader to the connection's own
    [ReadFrom] and returns that call's count and error. *)
Theorem ReadFrom_delegates (env : Env) (w : World) (c : connid) :
  retryComplete (rt w) = true ->
  conn (rt w) = Some c ->
  run env ReadFrom w
  = Done (GoTime.wrap64 (fst (net_read_from env (log w) c)),
          snd (net_read_from env (log w) c))
      {| rt := rt w; log := log w ++ [EvReadFrom c] |}.
Proof.
  intros Hc Hn. open_world w. subst. exec.
  destruct (net_read_from env l c) as [b e]. exec. rewrite wrap64_idem.
  reflexivity.
Qed.

Lemma ReadFrom_delegates_witness :
  let env := env_answers payload None in
  let w := world (sys_run env [Call (OpRead 16)] (start fresh)) in
  retryComplete (rt w) = true /\ conn (rt w) = Some 0 /\
  run env ReadFrom w
  = Done (1000%Z, None) {| rt := rt w; log := log w ++ [EvReadFrom 0] |}.
Proof.
  intros env w. split; [reflexivity|]. split; [reflexivity|].
  exact (@ReadFrom_delegates env w 0 eq_refl eq_refl).
Defined.





(** ** The two half-closes together *)

(** X12: on a stream with a connection, run one after the other from a
    state in which the mutex is free, [CloseRead] followed by
    [CloseWrite] and [CloseWrite] followed by [CloseRead] both return and
    leave the same retrier, with both flags closed and the mutex free; each
    forwards both half-closes to the connection, in the order of the
    calls. *)
Theorem half_closes_commute (env : Env) (w : World) (c : connid) :
  mutex (rt w) = false ->
  conn (rt w) = Some c ->
  exists e1 e2 e3 e4 w1 w2 w3 w4,
    run env CloseRead w = Done e1 w1 /\ run env CloseWrite w1 = Done e2 w2 /\
    run env CloseWrite w = Done e3 w3 /\ run env CloseRead w3 = Done e4 w4 /\
    rt w2 = rt w4 /\
    readClose (rt w2) = true /\ writeClose (rt w2) = true /\
    mutex (rt w2) = false /\
    log w2 = log w ++ [EvCloseRead c; EvCloseWrite c] /\
    log w4 = log w ++ [EvCloseWrite c; EvCloseRead c].
Proof.
  intros Hm Hc. open_world w. subst.
  destruct rdc, wrc; do 8 eexists;
    (split; [crunch; flat; reflexivity|]);
    (split; [crunch; flat; reflexivity|]);
    (split; [crunch; flat; reflexivity|]);
    (split; [crunch; flat; reflexivity|]);
    cbn; right_assoc; repeat split; reflexivity.
Qed.

Lemma half_closes_commute_witness :
  mutex (rt fresh) = false /\ conn (rt fresh) = Some 0 /\
  exists e1 e2 e3 e4 w1 w2 w3 w4,
    run env_reset CloseRead fresh = Done e1 w1 /\
    run env_reset CloseWrite w1 = Done e2 w2 /\
    run env_reset CloseWrite fresh = Done e3 w3 /\
    run env_reset CloseRead w3 = Done e4 w4 /\
    rt w2 = rt w4.
Proof.
  split; [reflexivity|]. split; [reflexivity|].
  destruct (@half_closes_commute env_reset fresh 0 eq_refl eq_refl)
    as (e1 & e2 & e3 & e4 & w1 & w2 & w3 & w4 & H1 & H2 & H3 & H4 & H5 & _).
  exists e1, e2, e3, e4, w1, w2, w3, w4. auto.
Defined.

(** ** How calls end *)

Lemma call_waits_or_panics (env : Env) (w : World) (o : op) :
  mutex (rt w) = false ->
  (retryComplete (rt w) = false -> exists c, conn (rt w) = Some c) ->
  waits_or_panics env w (writer_call o) (run env (call o) w).
Proof.
  intros Hmutex Hconn. open_world w. subst m.
  destruct rc.
  - destruct o, c, rdc, wrc; crunch; cbn; auto.
  - destruct Hconn as [c' ->]; [reflexivity|].
    destruct o, rdc, wrc; crunch; cbn; auto.
Qed.

Lemma resume_waits_or_panics (env : Env) (w : World) (p : Prog result) :
  parked_call p ->
  mutex (rt w) = false ->
  (retryComplete (rt w) = false -> exists c, conn (rt w) = Some c) ->
  waits_or_panics env w true (run env p w).
Proof.
  intros Hp Hmutex Hconn. open_world w. subst m.
  destruct rc.
  - destruct Hp, c; crunch; cbn; auto.
  - destruct Hconn as [c' ->]; [reflexivity|].
    destruct Hp; crunch; cbn; auto.
Qed.

(** ** Losing the connection *)

Ltac kept_goal :=
  unfold conn_kept;
  cbn [outcome_world rt log conn];
  intros Hnone; try discriminate;
  first
    [ left; reflexivity
    | right;
      match goal with
      | H : net_dial _ ((?l ++ [?a]) ++ [?b]) = Some ?e |- _ =>
          exists [a; b], [], e; split;
          [ rewrite <- ?app_assoc; reflexivity
          | rewrite <- ?app_assoc in *; exact H ]
      end ].

Lemma call_conn_kept (env : Env) (w : World) (o : op) :
  mutex (rt w) = false ->
  (retryComplete (rt w) = false -> exists c, conn (rt w) = Some c) ->
  conn_kept env w (run env (call o) w).
Proof.
  intros Hmutex Hconn. open_world w. subst m.
  destruct rc.
  - destruct o, c, rdc, wrc; crunch; flat; kept_goal.
  - destruct Hconn as [c' ->]; [reflexivity|].
    destruct o, rdc, wrc; crunch; flat; kept_goal.
Qed.

Lemma resume_conn_kept (env : Env) (w : World) (p : Prog result) :
  parked_call p ->
  mutex (rt w) = false ->
  (retryComplete (rt w) = false -> exists c, conn (rt w) = Some c) ->
  conn_kept env w (run env p w).
Proof.
  intros Hp Hmutex Hconn. open_world w. subst m.
  destruct rc.
  - destruct Hp, c; crunch; flat; kept_goal.
  - destruct Hconn as [c' ->]; [reflexivity|].
    destruct Hp; crunch; flat; kept_goal.
Qed.

(** ** Lifting to the steps of the system *)

Lemma sys_step_shape (env : Env) (l : label) (s : Sys) :
  sys_inv s -> crashed s = false ->
  (exists o,
     l = Call o /\
     sys_step env l s = settle (run env (call o) (world s)) (parked s) []) \/
  (exists i p,
     l = Resume i /\ nth_error (parked s) i = Some p /\ parked_call p /\
     sys_step env l s
     = settle (run env p (world s)) (firstn i (parked s)) (skipn (S i) (parked s))) \/
  sys_step env l s = s.
Proof.
  intros (_ & Hlive & _) Hcr. destruct (Hlive Hcr) as [_ Hp].
  unfold sys_step. rewrite Hcr. destruct l as [o|i].
  - left. exists o. auto.
  - destruct (nth_error (parked s) i) as [p|] eqn:Hnth; [|right; right; reflexivity].
    right. left. exists i, p. repeat split; auto.
    rewrite Forall_forall in Hp. eauto using nth_error_In.
Qed.

Lemma sys_step_crashed (env : Env) (l : label) (s : Sys) :
  crashed s = true -> sys_step env l s = s.
Proof. intros H. unfold sys_step. now rewrite H. Qed.

Lemma live_pre (s : Sys) :
  sys_inv s -> crashed s = false ->
  mutex (rt (world s)) = false /\
  (retryComplete (rt (world s)) = false -> exists c, conn (rt (world s)) = Some c).
Proof.
  intros (Hinv & Hlive & _) Hcr. destruct (Hlive Hcr) as [Hm _].
  split; [exact Hm|]. intros Ho. exists 0. now apply (inv_open Hinv).
Qed.

Lemma step_log_extends (env : Env) (l : label) (s : Sys) :
  sys_inv s ->
  exists new, log (world (sys_step env l s)) = log (world s) ++ new.
Proof.
  intros Hs. destruct (sys_step_spec env l Hs) as [_ [Hq | (buf & _ & Hd)]].
  - destruct (quiet_log Hq) as (new & Hl & _). eauto.
  - destruct (dec_cause Hd) as (c & n & [e|] & _ & _ & Hcase).
    + destruct Hcase as (rest & Hl & _). eauto.
    + destruct Hcase as [_ Hl]. eauto.
Qed.

Lemma settle_crashed (out : Outcome result) (before rest : list (Prog result)) :
  crashed (settle out before rest) = true -> exists w, out = Panic w.
Proof. destruct out; cbn; try discriminate. eauto. Qed.

(** ** Panics *)

Lemma step_conn_lost (env : Env) (l : label) (s : Sys) :
  net_dial env [] = None ->
  sys_inv s ->
  (crashed s = true -> nil_recv env = NilPanic) ->
  (conn (rt (world s)) = None -> redial_failed env (log (world s))) ->
  (crashed (sys_step env l s) = true -> nil_recv env = NilPanic) /\
  (conn (rt (world (sys_step env l s))) = None ->
   redial_failed env (log (world (sys_step env l s)))).
Proof.
  intros Hfirst Hs Hcrash Hlost.
  destruct (crashed s) eqn:Hcr; [rewrite sys_step_crashed by exact Hcr; auto|].
  destruct (live_pre Hs Hcr) as [Hm Hc].
  destruct (step_log_extends env l Hs) as [new Hnew].
  assert (Hout : forall out before rest,
             sys_step env l s = settle out before rest ->
             waits_or_panics env (world s) true out \/
             waits_or_panics env (world s) false out ->
             conn_kept env (world s) out ->
             (crashed (sys_step env l s) = true -> nil_recv env = NilPanic) /\
             (conn (rt (world (sys_step env l s))) = None ->
              redial_failed env (log (world (sys_step env l s))))).
  { intros out before rest Hstep Hkind Hkept. split.
    - rewrite Hstep. intros Hp. apply settle_crashed in Hp as [w' ->].
      destruct Hkind as [H|H]; exact H.
    - intros Hnone. rewrite Hnew.
      rewrite Hstep, settle_world in Hnone.
      destruct (Hkept Hnone) as [Hbefore | (pre & post & e & Hl & Hd)].
      + destruct (Hlost Hbefore) as (pre & post & e & Hl & Hne & Hd).
        exists pre, (post ++ new), e. rewrite Hl, <- app_assoc. auto.
      + rewrite Hstep, settle_world, Hl in Hnew.
        exists (log (world s) ++ pre), post, e. rewrite <- Hnew.
        repeat split; auto. intros Hnil. rewrite Hnil in Hd. congruence. }
  destruct (sys_step_shape env l Hs Hcr)
    as [(o & -> & Hstep) | [(i & p & -> & _ & Hp & Hstep) | Hstep]].
  - eapply Hout; [exact Hstep| |apply call_conn_kept; auto].
    pose proof (call_waits_or_panics env (world s) o Hm Hc) as H.
    destruct (writer_call o); auto.
  - eapply Hout; [exact Hstep| |apply resume_conn_kept; auto].
    left. apply resume_waits_or_panics; auto.
  - rewrite Hstep. split; [congruence | exact Hlost].
Qed.

(** X15: in every sequence of calls and resumptions, each run to its next
    scheduling point, on a stream made by
    [DialWithSplitRetry], the retrier is without a connection only after a
    redial that failed, and a panic comes only from a method call on that
    nil connection: no call closes a closed flag or unlocks an unlocked
    mutex.  So with a network whose dials all succeed no sequence of calls
    panics. *)
Theorem panics_only_on_nil_connection (env : Env) (w0 : World) (ls : list label) :
  DialWithSplitRetry env = inl w0 ->
  let s := sys_run env ls (start w0) in
  (conn (rt (world s)) = None ->
   retryComplete (rt (world s)) = true /\ redial_failed env (log (world s))) /\
  (crashed s = true ->
   nil_recv env = NilPanic /\ conn (rt (world s)) = None) /\
  ((forall h, net_dial env h = None) -> crashed s = false).
Proof.
  intros Hdial s.
  assert (Hfirst : net_dial env [] = None).
  { unfold DialWithSplitRetry in Hdial.
    destruct (net_dial env []); [discriminate | reflexivity]. }
  assert (Hstart : conn (rt w0) = Some 0).
  { unfold DialWithSplitRetry in Hdial. rewrite Hfirst in Hdial.
    injection Hdial as <-. reflexivity. }
  assert (H : forall ls' s0,
             sys_inv s0 ->
             (crashed s0 = true -> nil_recv env = NilPanic) ->
             (conn (rt (world s0)) = None -> redial_failed env (log (world s0))) ->
             (crashed (sys_run env ls' s0) = true -> nil_recv env = NilPanic) /\
             (conn (rt (world (sys_run env ls' s0))) = None ->
              redial_failed env (log (world (sys_run env ls' s0))))).
  { induction ls' as [|l ls' IH]; intros s0 Hs0 Hc0 Hl0; [auto|].
    rewrite sys_run_cons.
    destruct (step_conn_lost l Hfirst Hs0 Hc0 Hl0) as [Hc1 Hl1].
    apply IH; auto. now apply sys_step_spec. }
  destruct (H ls (start w0)) as [Hcrash Hlost].
  - eapply start_inv; eauto.
  - cbn. discriminate.
  - cbn. rewrite Hstart. discriminate.
  - fold s in Hcrash, Hlost.
    pose proof (reach_inv env ls Hdial) as (Hinv & Hlive & Hdead).
    fold s in Hinv, Hlive, Hdead.
    assert (Hnone : conn (rt (world s)) = None ->
                    retryComplete (rt (world s)) = true /\
                    redial_failed env (log (world s))).
    { intros Hn. split; [|auto].
      destruct (retryComplete (rt (world s))) eqn:Hr; [reflexivity|].
      destruct (inv_open Hinv Hr). congruence. }
    split; [exact Hnone|].
    split; [intros Hcr; split; [auto | apply (Hdead Hcr)]|].
    intros Hall. destruct (crashed s) eqn:Hcr; [|reflexivity].
    destruct (Hdead eq_refl) as [_ Hn].
    destruct (Hlost Hn) as (pre & post & e & _ & _ & Hd).
    rewrite Hall in Hd. discriminate.
Qed.

Lemma panics_only_on_nil_connection_witness :
  let env := env_unreachable NilPanic in
  let s := sys_run env [Call (OpWrite payload); Call (OpRead 16); Resume 0]
             (start fresh) in
  DialWithSplitRetry env = inl fresh /\
  crashed s = true /\
  nil_recv env = NilPanic /\ conn (rt (world s)) = None.
Proof.
  intros env s.
  assert (Hdial : DialWithSplitRetry env = inl fresh) by reflexivity.
  split; [exact Hdial|].
  assert (Hcr : crashed s = true) by reflexivity.
  split; [exact Hcr|].
  exact (proj1 (proj2 (panics_only_on_nil_connection env
                         [Call (OpWrite payload); Call (OpRead 16); Resume 0]
                         Hdial)) Hcr).
Defined.

(** ** A write that fails before the retry *)

Lemma sent_app (c : connid) (l l' : list event) :
  sent c (l ++ l') = sent c l ++ sent c l'.
Proof. apply flat_map_app. Qed.

(** The retry with a new connection that takes all it is given: the new
    connection is handed the hello. *)
Lemma retry_sends_hello (env : Env) (w : World) (buf : nat) (c : connid) :
  mutex (rt w) = false ->
  retryComplete (rt w) = false ->
  conn (rt w) = Some c ->
  c <> dials (log w) ->
  (forall h, snd (net_read env h c buf) <> None) ->
  (forall h, net_dial env h = None) ->
  (forall h x, net_write env h (dials (log w)) x = (length x, None)) ->
  exists r w' mid,
    run env (Read buf) w = Done r w' /\
    mutex (rt w') = false /\
    retryComplete (rt w') = true /\
    conn (rt w') = Some (dials (log w)) /\
    log w' = log w ++ mid /\
    sent (dials (log w)) mid = hello (rt w).
Proof.
  intros Hm Ho Hc Hne Hreads Hdials Hall. open_world w. subst.
  apply Nat.eqb_neq in Hne.
  assert (Hsplit : forall s, firstn s h ++ skipn s h = h)
    by (intros; apply firstn_skipn).
  unfold Read, retry. exec.
  pose proof (Hreads l) as Hr.
  destruct (net_read env l c buf) as [kr [er|]];
    [clear Hr|exfalso; apply Hr; reflexivity].
  exec. rewrite andb_false_r. exec. rewrite Hdials. exec.
  rewrite !dials_app. cbn [dials filter is_dial length Nat.add].
  rewrite ?Nat.add_0_r.
  unfold splitHello.
  destruct (length h =? 0) eqn:Hlen; destruct rdc, wrc;
    repeat (exec; rewrite ?Hall);
    match goal with
    | |- context [net_read env ?hist ?c' buf] =>
        destruct (net_read env hist c' buf) as [kn en]
    end; exec; flat; rewrite <- ?app_assoc; cbn [app];
    do 3 eexists;
    (split; [reflexivity|]); (split; [reflexivity|]);
    (split; [reflexivity|]); (split; [reflexivity|]);
    (split; [reflexivity|]);
    cbn [sent flat_map]; rewrite ?Hne, ?Nat.eqb_refl, ?app_nil_r; cbn [app];
    first [ apply Hsplit
          | apply Nat.eqb_eq, length_zero_iff_nil in Hlen; subst h; reflexivity ].
Qed.

(** X17: run one after the other from a state in which the mutex is free:
    a [Write] whose write to the provisional connection fails waits
    for the decision; when the [Read] then fails, redials and replays the
    hello, and the waiting [Write] is resumed, it writes the rest of its
    buffer to the new connection and reports the whole buffer written.  With
    a new connection that takes all it is given, the new connection has been
    handed the hello as it was before the [Write], followed by the whole
    buffer of the [Write]: no byte is lost or sent twice. *)
Theorem retry_preserves_stream (env : Env) (w : World) (b : list byte)
    (buf : nat) (c : connid) (n : nat) (e : error) :
  mutex (rt w) = false ->
  retryComplete (rt w) = false ->
  conn (rt w) = Some c ->
  net_write env (log w) c b = (n, Some e) ->
  (forall h, snd (net_read env h c buf) <> None) ->
  (forall h, net_dial env h = None) ->
  (forall h x, net_write env h (dials (log w)) x = (length x, None)) ->
  exists k w1 r w2 w3 new,
    run env (Write b) w = Parked (Write_parked b k) w1 /\
    run env (Read buf) w1 = Done r w2 /\
    run env (Write_parked b k) w2 = Done (length b, None) w3 /\
    conn (rt w3) = Some (dials (log w)) /\
    log w3 = log w ++ new /\
    sent (dials (log w)) new = hello (rt w) ++ b.
Proof.
  intros Hm Ho Hc Hwrite Hreads Hdials Hall.
  assert (Hne : c <> dials (log w)).
  { intros ->. rewrite Hall in Hwrite. discriminate. }
  set (k := Nat.min n (length b)).
  assert (H1 : exists w1 pre,
             run env (Write b) w = Parked (Write_parked b k) w1 /\
             mutex (rt w1) = false /\ retryComplete (rt w1) = false /\
             conn (rt w1) = Some c /\
             hello (rt w1) = hello (rt w) ++ firstn k b /\
             log w1 = log w ++ pre /\ dials pre = 0 /\
             sent (dials (log w)) pre = []).
  { clear Hreads Hdials Hall. apply Nat.eqb_neq in Hne. unfold k. clear k.
    open_world w. subst.
    unfold Write, Write_provisional. exec. rewrite Hwrite. exec.
    do 2 eexists. split; [reflexivity|]. flat.
    rewrite <- ?app_assoc. cbn [app].
    repeat (split; [reflexivity|]).
    cbn. rewrite Hne. reflexivity. }
  destruct H1 as (w1 & pre & Hrun1 & Hm1 & Ho1 & Hc1 & Hh1 & Hl1 & Hd1 & Hs1).
  assert (Hdw : dials (log w1) = dials (log w))
    by (rewrite Hl1, dials_app, Hd1; lia).
  destruct (@retry_sends_hello env w1 buf c Hm1 Ho1 Hc1) as
    (r & w2 & mid & Hrun2 & Hm2 & Hcl2 & Hc2 & Hl2 & Hs2);
    try (rewrite Hdw; assumption); try assumption.
  rewrite Hdw in Hc2, Hs2.
  destruct (Write_resumes_on_final_socket env b) as (_ & _ & Hresume).
  pose proof (Hresume w2 k (dials (log w)) _ _ Hm2 Hcl2 Hc2 (Hall _ _)) as Hrun3.
  assert (Hlen : k + Nat.min (length (skipn k b)) (length (skipn k b)) = length b).
  { rewrite Nat.min_id, length_skipn. unfold k. lia. }
  rewrite Hlen in Hrun3.
  exists k, w1, r, w2. do 2 eexists.
  split; [exact Hrun1|]. split; [exact Hrun2|]. split; [exact Hrun3|].
  split; [exact Hc2|]. cbn [log].
  split.
  - rewrite Hl2, Hl1, <- !app_assoc. reflexivity.
  - rewrite !sent_app, Hs1, Hs2, Hh1. cbn.
    rewrite Nat.eqb_refl, app_nil_r, <- app_assoc. f_equal.
    apply firstn_skipn.
Qed.

Lemma retry_preserves_stream_witness :
  exists k w1 r w2 w3 new,
    run env_lossy (Write payload) fresh = Parked (Write_parked payload k) w1 /\
    run env_lossy (Read 16) w1 = Done r w2 /\
    run env_lossy (Write_parked payload k) w2 = Done (80, None) w3 /\
    conn (rt w3) = Some 1 /\
    log w3 = log fresh ++ new /\
    sent 1 new = payload.
Proof.
  exact (@retry_preserves_stream env_lossy fresh payload 16 0 3 broken
           eq_refl eq_refl eq_refl eq_refl
           (fun h => ltac:(cbn; discriminate))
           (fun h => eq_refl) (fun h x => eq_refl)).
Defined.
